(** * Trip expense splitter: currency arithmetic and the balance engine

    A shallow embedding of [src/lib/utils/currency.ts] (class
    [CurrencyUtils]), of the balance calculator
    ([lib/utils/balance-calculator.ts], class [BalanceCalculator]), of the
    balances endpoint ([pages/api/balances/[tripId]]) and of the
    settlement documents ([lib/models/Settlement.ts]).

    Numbers.  The TypeScript code computes on JavaScript numbers, which
    are IEEE doubles.  They are embedded as exact rationals [Q]:
    [Math.round x] is [floor (x + 1/2)] (halves go up, as in JavaScript)
    and [Math.floor] is [Qfloor].  The embedding is exact where the
    doubles of the code carry whole cents of ordinary size: there the
    rounding [add] and [subtract], the comparisons of the settlement loop
    and the equal distribution compute what the rationals do.  It is not
    exact where a product or quotient lands within a rounding error of
    half a cent (the code may round it either way), where a comparison
    falls on the 0.01 tolerance itself, where the code adds amounts up
    without rounding the sum, or where amounts leave the range in which
    doubles carry cents.  A statement that depends on such a
    computation is therefore stated with a margin (within one cent,
    strictly inside the tolerance) and for inputs of the ordinary range,
    [in_range] and [ordinary] below.

    Maps.  A JavaScript [Map] iterates in insertion order and the engine's
    stable sorts break ties by that order, so maps are association lists
    that keep insertion order ([Map.set] overwrites in place or appends).

    Exceptions.  [throw new Error(msg)] is the [Throw msg] result. *)

From Stdlib Require Import QArith Qround Qabs Qminmax ZArith String Bool List.
From Stdlib Require Import Lia Lqa Permutation Sorted.
Import ListNotations.
Open Scope Q_scope.

(** ** Results of code that may throw *)

Inductive result (A : Type) : Type :=
| Ok (v : A)
| Throw (msg : string).
Arguments Ok {A} v.
Arguments Throw {A} msg.

Definition bind {A B : Type} (r : result A) (k : A -> result B) : result B :=
  match r with
  | Ok v => k v
  | Throw msg => Throw msg
  end.

Notation "x <- r ;; k" := (bind r (fun x => k))
  (at level 61, r at next level, right associativity).

(** ** JavaScript primitives on numbers and arrays *)

Definition Qltb (x y : Q) : bool := negb (Qle_bool y x).

(** [Math.round]: nearest integer, halves towards plus infinity. *)
Definition Math_round (x : Q) : Z := Qfloor (x + (1 # 2)).

Definition Math_floor (x : Q) : Z := Qfloor x.

Definition Math_abs (x : Q) : Q := Qabs x.

Definition Math_min (x y : Q) : Q := if Qle_bool x y then x else y.

(** [Math.max(...l)] on a non-empty array. *)
Definition Math_max (l : list Q) : option Q :=
  match l with
  | [] => None
  | x :: t => Some (fold_left (fun m y => if Qltb m y then y else m) t x)
  end.

(** [l.reduce((acc, val) => acc + val, 0)] *)
Definition sum (l : list Q) : Q := fold_left Qplus l 0.

(** [l.indexOf(x)], by strict equality of numbers; [length l] stands for
    "not found" and is never reached on the paths below. *)
Fixpoint indexOf (x : Q) (l : list Q) : nat :=
  match l with
  | [] => O
  | y :: t => if Qeq_bool y x then O else S (indexOf x t)
  end.

(** [l[i] = v] for an index inside the array. *)
Fixpoint array_set (i : nat) (v : Q) (l : list Q) : list Q :=
  match l, i with
  | [], _ => []
  | _ :: t, O => v :: t
  | y :: t, S i' => y :: array_set i' v t
  end.

(** Stable sort in descending order of [key]: what
    [l.sort((a, b) => key(b) - key(a))] returns. *)
Fixpoint insert_desc {A : Type} (key : A -> Q) (x : A) (l : list A) : list A :=
  match l with
  | [] => [x]
  | y :: t => if Qltb (key x) (key y) then y :: insert_desc key x t
              else x :: y :: t
  end.

Definition sort_desc {A : Type} (key : A -> Q) (l : list A) : list A :=
  fold_right (insert_desc key) [] l.

(** ** Insertion-ordered maps keyed by strings *)

Definition Map (V : Type) : Type := list (string * V).

Fixpoint get {V : Type} (k : string) (m : Map V) : option V :=
  match m with
  | [] => None
  | (k', v) :: t => if String.eqb k k' then Some v else get k t
  end.

Definition has {V : Type} (k : string) (m : Map V) : bool :=
  match get k m with
  | Some _ => true
  | None => false
  end.

Fixpoint set {V : Type} (k : string) (v : V) (m : Map V) : Map V :=
  match m with
  | [] => [(k, v)]
  | (k', v') :: t => if String.eqb k k' then (k, v) :: t
                     else (k', v') :: set k v t
  end.

Definition keys {V : Type} (m : Map V) : list string := map fst m.

Definition values {V : Type} (m : Map V) : list V := map snd m.

(** ** [CurrencyUtils] *)

Module CurrencyUtils.

Definition PRECISION : Z := 2.

Definition MULTIPLIER : Q := inject_Z (10 ^ PRECISION).

Definition round (amount : Q) : Q :=
  inject_Z (Math_round (amount * MULTIPLIER)) / MULTIPLIER.

Definition add (amounts : list Q) : Q := round (sum amounts).

Definition subtract (a b : Q) : Q := round (a - b).

Definition multiply (a b : Q) : Q := round (a * b).

Definition divide (a b : Q) : result Q :=
  if Qeq_bool b 0 then Throw "Division by zero"
  else Ok (round (a / b)).

(** The loop of [distribute]:
    [for (i = 0; i < remainderCents && i < shares; i++)
       distribution[i] = round(distribution[i] + 0.01)].
    The array has [shares] elements, so [i < shares] is the list running
    out. *)
Fixpoint add_remainder_cents (remainderCents : nat) (distribution : list Q)
  : list Q :=
  match remainderCents, distribution with
  | S r, x :: t => round (x + (1 # 100)) :: add_remainder_cents r t
  | _, _ => distribution
  end.

Definition distribute (total : Q) (shares : Z) : result (list Q) :=
  if (shares <=? 0)%Z then Throw "Shares must be positive"
  else if Qltb total 0 then Throw "Total must be non-negative"
  else
    let baseAmount :=
      inject_Z (Math_floor (total * MULTIPLIER / inject_Z shares)) / MULTIPLIER in
    let remainder := round (total - baseAmount * inject_Z shares) in
    let distribution := repeat baseAmount (Z.to_nat shares) in
    let remainderCents := Math_round (remainder * MULTIPLIER) in
    Ok (add_remainder_cents (Z.to_nat remainderCents) distribution).

(** The block "Adjust for rounding errors", textually the same in
    [distributeByPercentages] and [distributeByShares].  Both callers
    throw on an empty array before they reach it, so [Math.max] always has
    an argument. *)
Definition adjust_rounding (total : Q) (amounts : list Q) : list Q :=
  let calculatedTotal := sum amounts in
  let difference := round (total - calculatedTotal) in
  if Qltb (1 # 100) (Math_abs difference) then
    match Math_max amounts with
    | Some largest =>
        let maxIndex := indexOf largest amounts in
        array_set maxIndex (add [nth maxIndex amounts 0; difference]) amounts
    | None => amounts
    end
  else amounts.

Definition distributeByPercentages (total : Q) (percentages : list Q)
  : result (list Q) :=
  let sum_pct := sum percentages in
  if Qltb (1 # 100) (Math_abs (sum_pct - 100))
  then Throw "Percentages must sum to 100"
  else
    let amounts := map (fun pct => multiply total (pct / 100)) percentages in
    Ok (adjust_rounding total amounts).

Definition distributeByShares (total : Q) (shares : list Q)
  : result (list Q) :=
  let totalShares := sum shares in
  if Qeq_bool totalShares 0 then Throw "Total shares must be positive"
  else
    let amounts :=
      map (fun share => multiply total (share / totalShares)) shares in
    Ok (adjust_rounding total amounts).

Definition isEqual (a b : Q) : bool := Qltb (Math_abs (a - b)) (1 # 100).

Definition isZero (amount : Q) : bool := Qltb (Math_abs amount) (1 # 100).

End CurrencyUtils.

(** ** [BalanceCalculator] *)

Module BalanceCalculator.

(** The four string literals of the union type; the [default] branch of
    [calculateShares] is unreachable for a value of this type. *)
Inductive SplitType : Type := EQUAL | PERCENTAGE | CUSTOM | SHARES.

Record ParticipantShare : Type := mkShare {
  userId : string;
  name : string;
  value : Q;              (* percentage, amount or weight *)
  amount : option Q       (* calculated amount, [undefined] on input *)
}.

Record EnhancedExpense : Type := mkExpense {
  e_id : string;
  e_description : string;
  e_amount : Q;
  e_paidBy : string;
  e_paidByName : string;
  e_splitType : SplitType;
  e_participants : list ParticipantShare
}.

Record UserBalance : Type := mkBalance {
  ub_userId : string;
  ub_name : string;
  ub_balance : Q;         (* positive = owed money, negative = owes money *)
  ub_totalPaid : Q;
  ub_totalOwed : Q;
  ub_totalShare : Q
}.

Record DebtRelationship : Type := mkDebt {
  creditor : string;
  creditorName : string;
  debtor : string;
  debtorName : string;
  d_amount : Q
}.

Record Settlement : Type := mkSettlement {
  from : string;
  fromName : string;
  to : string;
  toName : string;
  s_amount : Q
}.

Record Summary : Type := mkSummary {
  totalTransactions : nat;
  totalSettlementAmount : Q;
  averagePerPerson : Q;
  isBalanced : bool
}.

Record BalanceCalculationResult : Type := mkResult {
  r_userBalances : list UserBalance;
  r_debtRelationships : list DebtRelationship;
  r_settlements : list Settlement;
  r_totalExpenses : Q;
  r_summary : Summary
}.

(** The private fields of a [BalanceCalculator] object. *)
Record Calculator : Type := mkCalculator {
  expenses : list EnhancedExpense;
  userBalances : Map UserBalance;
  debtGraph : Map (Map Q);
  userNames : Map string
}.

(** [this.userNames.get(id) || 'Unknown']: a missing or empty name. *)
Definition nameOf (userNames : Map string) (id : string) : string :=
  match get id userNames with
  | Some n => if String.eqb n "" then "Unknown"%string else n
  | None => "Unknown"%string
  end.

Definition initializeUserNames (es : list EnhancedExpense) : Map string :=
  fold_left
    (fun names expense =>
       fold_left (fun names' participant =>
                    set (userId participant) (name participant) names')
                 (e_participants expense)
                 (set (e_paidBy expense) (e_paidByName expense) names))
    es [].

(** [shares.map((share, index) => ({...share, amount: amounts[index]}))] *)
Fixpoint with_amounts (shares : list ParticipantShare) (amounts : list Q)
  : list ParticipantShare :=
  match shares, amounts with
  | share :: ss, a :: rest =>
      mkShare (userId share) (name share) (value share) (Some a)
      :: with_amounts ss rest
  | share :: ss, [] =>
      mkShare (userId share) (name share) (value share) None
      :: with_amounts ss []
  | [], _ => []
  end.

Definition calculateEqualShares (expense : EnhancedExpense)
    (shares : list ParticipantShare) : result (list ParticipantShare) :=
  amounts <- CurrencyUtils.distribute (e_amount expense)
               (Z.of_nat (length shares)) ;;
  Ok (with_amounts shares amounts).

Definition calculatePercentageShares (expense : EnhancedExpense)
    (shares : list ParticipantShare) : result (list ParticipantShare) :=
  let percentages := map value shares in
  amounts <- CurrencyUtils.distributeByPercentages (e_amount expense)
               percentages ;;
  Ok (with_amounts shares amounts).

Definition calculateCustomShares (expense : EnhancedExpense)
    (shares : list ParticipantShare) : result (list ParticipantShare) :=
  let totalCustomAmount := sum (map value shares) in
  if negb (CurrencyUtils.isEqual totalCustomAmount (e_amount expense))
  then Throw "Custom amounts must sum to total expense amount"
  else Ok (map (fun share =>
                  mkShare (userId share) (name share) (value share)
                          (Some (CurrencyUtils.round (value share))))
               shares).

Definition calculateWeightedShares (expense : EnhancedExpense)
    (shares : list ParticipantShare) : result (list ParticipantShare) :=
  let weights := map value shares in
  amounts <- CurrencyUtils.distributeByShares (e_amount expense) weights ;;
  Ok (with_amounts shares amounts).

Definition calculateShares (expense : EnhancedExpense)
  : result (list ParticipantShare) :=
  let shares := e_participants expense in
  match e_splitType expense with
  | EQUAL => calculateEqualShares expense shares
  | PERCENTAGE => calculatePercentageShares expense shares
  | CUSTOM => calculateCustomShares expense shares
  | SHARES => calculateWeightedShares expense shares
  end.

(** [if (x)] on an optional number: [undefined] and [0] are falsy. *)
Definition truthy (x : option Q) : bool :=
  match x with
  | Some q => negb (Qeq_bool q 0)
  | None => false
  end.

Definition num (x : option Q) : Q :=
  match x with
  | Some q => q
  | None => 0
  end.

Definition updateUserBalance (userNames : Map string)
    (userBalances : Map UserBalance) (id : string) (paid owed : option Q)
  : Map UserBalance :=
  let existing :=
    match get id userBalances with
    | Some b => b
    | None => mkBalance id (nameOf userNames id) 0 0 0 0
    end in
  let totalPaid :=
    if truthy paid
    then CurrencyUtils.add [ub_totalPaid existing; num paid]
    else ub_totalPaid existing in
  let totalShare :=
    if truthy owed
    then CurrencyUtils.add [ub_totalShare existing; num owed]
    else ub_totalShare existing in
  let balance := CurrencyUtils.subtract totalPaid totalShare in
  let totalOwed := if Qltb balance 0 then Math_abs balance else 0 in
  set id (mkBalance (ub_userId existing) (ub_name existing)
                    balance totalPaid totalOwed totalShare)
      userBalances.

Definition updateDebtGraph (debtGraph : Map (Map Q))
    (debtor creditor : string) (amount : Q) : Map (Map Q) :=
  let debtorMap :=
    match get debtor debtGraph with
    | Some m => m
    | None => []
    end in
  let existingDebt :=
    match get creditor debtorMap with
    | Some d => d
    | None => 0
    end in
  set debtor (set creditor (CurrencyUtils.add [existingDebt; amount]) debtorMap)
      debtGraph.

(** One turn of the loop over the shares in [processExpense]. *)
Definition processShare (userNames : Map string) (paidBy : string)
    (st : Map UserBalance * Map (Map Q)) (share : ParticipantShare)
  : Map UserBalance * Map (Map Q) :=
  let id := userId share in
  let owedAmount := amount share in
  let balances := updateUserBalance userNames (fst st) id None owedAmount in
  if negb (String.eqb id paidBy)
  then (balances, updateDebtGraph (snd st) id paidBy (num owedAmount))
  else (balances, snd st).

Definition processExpense (userNames : Map string)
    (st : Map UserBalance * Map (Map Q)) (expense : EnhancedExpense)
  : result (Map UserBalance * Map (Map Q)) :=
  let paidAmount := e_amount expense in
  let paidBy := e_paidBy expense in
  shares <- calculateShares expense ;;
  let balances :=
    updateUserBalance userNames (fst st) paidBy (Some paidAmount) None in
  Ok (fold_left (processShare userNames paidBy) shares (balances, snd st)).

Fixpoint processExpenses (userNames : Map string)
    (st : Map UserBalance * Map (Map Q)) (es : list EnhancedExpense)
  : result (Map UserBalance * Map (Map Q)) :=
  match es with
  | [] => Ok st
  | expense :: rest =>
      st' <- processExpense userNames st expense ;;
      processExpenses userNames st' rest
  end.

Definition ensureAllUsersHaveBalances (userNames : Map string)
    (userBalances : Map UserBalance) : Map UserBalance :=
  fold_left
    (fun balances entry =>
       if negb (has (fst entry) balances)
       then set (fst entry) (mkBalance (fst entry) (snd entry) 0 0 0 0) balances
       else balances)
    userNames userBalances.

Definition calculateBalances (userNames : Map string)
    (es : list EnhancedExpense) : result (Map UserBalance * Map (Map Q)) :=
  st <- processExpenses userNames ([], []) es ;;
  Ok (ensureAllUsersHaveBalances userNames (fst st), snd st).

(** [new BalanceCalculator(expenses)] *)
Definition constructor (es : list EnhancedExpense) : result Calculator :=
  let names := initializeUserNames es in
  st <- calculateBalances names es ;;
  Ok (mkCalculator es (fst st) (snd st) names).

Definition getUserBalances (c : Calculator) : list UserBalance :=
  sort_desc ub_balance (values (userBalances c)).

Definition getDebtRelationships (c : Calculator) : list DebtRelationship :=
  let relationships :=
    flat_map
      (fun entry =>
         let debtor := fst entry in
         flat_map
           (fun edge =>
              let creditor := fst edge in
              let amount := snd edge in
              if Qltb (1 # 100) amount
              then [mkDebt creditor (nameOf (userNames c) creditor)
                           debtor (nameOf (userNames c) debtor)
                           (CurrencyUtils.round amount)]
              else [])
           (snd entry))
      (debtGraph c) in
  sort_desc d_amount relationships.

Definition computeNetBalances (userNames : Map string)
    (debtGraph : Map (Map Q)) : Map Q :=
  let init := fold_left (fun nb entry => set (fst entry) 0 nb) userNames [] in
  fold_left
    (fun nb entry =>
       let debtor := fst entry in
       fold_left
         (fun nb' edge =>
            let creditor := fst edge in
            let amount := snd edge in
            let currentDebtorBalance :=
              match get debtor nb' with Some b => b | None => 0 end in
            let currentCreditorBalance :=
              match get creditor nb' with Some b => b | None => 0 end in
            let nb1 :=
              set debtor (CurrencyUtils.subtract currentDebtorBalance amount)
                  nb' in
            set creditor (CurrencyUtils.add [currentCreditorBalance; amount])
                nb1)
         (snd entry) nb)
    debtGraph init.

(** The partition of [optimizeSettlements]: creditors keep their balance,
    debtors its absolute value; both in the map's order. *)
Definition creditorsOf (netBalances : Map Q) : list (string * Q) :=
  filter (fun entry => Qltb (1 # 100) (snd entry)) netBalances.

Definition debtorsOf (netBalances : Map Q) : list (string * Q) :=
  map (fun entry => (fst entry, Math_abs (snd entry)))
      (filter (fun entry => negb (Qltb (1 # 100) (snd entry))
                            && Qltb (snd entry) (- (1 # 100)))
              netBalances).

(** The [while] loop of [optimizeSettlements].  [creditors] and [debtors]
    are the parts of the two arrays from [creditorIndex] and [debtorIndex]
    on: the loop only ever writes the entry at the current index and only
    moves the indices forward.  Each turn uses one unit of [fuel]; [None]
    means the fuel ran out before the loop ended. *)
Fixpoint settleLoop (userNames : Map string) (fuel : nat)
    (creditors debtors : list (string * Q)) : option (list Settlement) :=
  match creditors, debtors with
  | (creditor, creditAmount) :: cs, (debtor, debtAmount) :: ds =>
      match fuel with
      | O => None
      | S fuel' =>
          let settleAmount := Math_min creditAmount debtAmount in
          let emitted :=
            if Qltb (1 # 100) settleAmount
            then [mkSettlement debtor (nameOf userNames debtor)
                               creditor (nameOf userNames creditor)
                               (CurrencyUtils.round settleAmount)]
            else [] in
          let creditLeft := CurrencyUtils.subtract creditAmount settleAmount in
          let debtLeft := CurrencyUtils.subtract debtAmount settleAmount in
          let creditors' :=
            if CurrencyUtils.isZero creditLeft then cs
            else (creditor, creditLeft) :: cs in
          let debtors' :=
            if CurrencyUtils.isZero debtLeft then ds
            else (debtor, debtLeft) :: ds in
          option_map (app emitted)
                     (settleLoop userNames fuel' creditors' debtors')
      end
  | _, _ => Some []
  end.

(** The loop is given one unit of fuel per creditor and per debtor; that
    this always suffices is lemma [settleLoop_terminates] below. *)
Definition optimizeSettlements (userNames : Map string)
    (debtGraph : Map (Map Q)) : option (list Settlement) :=
  let netBalances := computeNetBalances userNames debtGraph in
  let creditors := sort_desc snd (creditorsOf netBalances) in
  let debtors := sort_desc snd (debtorsOf netBalances) in
  option_map (sort_desc s_amount)
             (settleLoop userNames (length creditors + length debtors)
                         creditors debtors).

Definition getOptimizedSettlements (c : Calculator)
  : option (list Settlement) :=
  optimizeSettlements (userNames c) (debtGraph c).

(** [getCalculationResult]: [None] only if the settlement loop ran out of
    fuel, [Some (Throw _)] when the method throws. *)
Definition getCalculationResult (c : Calculator)
  : option (result BalanceCalculationResult) :=
  let balances := getUserBalances c in
  let debtRelationships := getDebtRelationships c in
  match getOptimizedSettlements c with
  | None => None
  | Some settlements =>
      let totalExpenses := sum (map e_amount (expenses c)) in
      Some (average <- CurrencyUtils.divide totalExpenses
                         (inject_Z (Z.of_nat (length (userNames c)))) ;;
            Ok (mkResult balances debtRelationships settlements totalExpenses
                  (mkSummary (length settlements)
                             (sum (map s_amount settlements))
                             average
                             (forallb (fun b => CurrencyUtils.isZero (ub_balance b))
                                      balances))))
  end.

(** Constructing the calculator and asking for the result. *)
Definition calculate (es : list EnhancedExpense)
  : option (result BalanceCalculationResult) :=
  match constructor es with
  | Throw msg => Some (Throw msg)
  | Ok c => getCalculationResult c
  end.

(** A legacy expense as [convertFromLegacyExpense] reads it.  [l_id] is
    [legacyExpense._id || legacyExpense.id]; [paidByName] and [sharedBy]
    may be missing. *)
Record LegacyExpense : Type := mkLegacy {
  l_id : string;
  l_description : string;
  l_amount : Q;
  l_paidBy : string;
  l_paidByName : option string;
  l_sharedBy : option (list string)
}.

Definition convertFromLegacyExpense (legacyExpense : LegacyExpense)
  : EnhancedExpense :=
  mkExpense (l_id legacyExpense) (l_description legacyExpense)
    (l_amount legacyExpense) (l_paidBy legacyExpense)
    (match l_paidByName legacyExpense with
     | Some n => if String.eqb n "" then "Unknown"%string else n
     | None => "Unknown"%string
     end)
    EQUAL
    (match l_sharedBy legacyExpense with
     | Some sharedBy =>
         map (fun userId =>
                mkShare userId "Unknown" 1
                  (Some (l_amount legacyExpense
                         / inject_Z (Z.of_nat (length sharedBy)))))
             sharedBy
     | None => []
     end).

End BalanceCalculator.

Import BalanceCalculator.

(** ** The balances endpoint, [pages/api/balances/[tripId]]

    The endpoint computes balances and settlements on its own, "without
    external dependencies".  Its [UserBalance] and [Settlement] interfaces
    and its summary object have the fields of the calculator's, so the
    records above are used for them.  The endpoint does not round its
    running totals and remaining amounts; here they are exact sums and
    differences, and the properties below are those that do not depend
    on which way a value next to a cent boundary falls. *)

Module BalancesApi.

(** The fields [calculateBasicBalances] reads from [expense.toObject()]. *)
Record StoredExpense : Type := mkStored {
  x_paidBy : string;
  x_amount : Q;
  x_sharedBy : list string
}.

(** A person of [trip.people]; [_id] may be missing. *)
Record Person : Type := mkPerson {
  p_name : string;
  p_id : option string
}.

(** The [data] object of the response. *)
Record BalanceData : Type := mkData {
  bd_userBalances : list UserBalance;
  bd_settlements : list Settlement;
  bd_totalExpenses : Q;
  bd_summary : Summary
}.

(** [Math.round(x * 100) / 100] *)
Definition round2 (x : Q) : Q := inject_Z (Math_round (x * 100)) / 100.

(** [if (!userBalances.has(id)) userBalances.set(id, {...})] *)
Definition ensure (userNameMap : Map string) (userBalances : Map UserBalance)
    (id : string) : Map UserBalance :=
  if negb (has id userBalances)
  then set id (mkBalance id (nameOf userNameMap id) 0 0 0 0) userBalances
  else userBalances.

(** [userBalances.get(id)!.totalPaid += amount]: the record is updated in
    place, at its position in the map. *)
Definition addPaid (userBalances : Map UserBalance) (id : string) (amount : Q)
  : Map UserBalance :=
  match get id userBalances with
  | Some b =>
      set id (mkBalance (ub_userId b) (ub_name b) (ub_balance b)
                        (ub_totalPaid b + amount) (ub_totalOwed b)
                        (ub_totalShare b))
          userBalances
  | None => userBalances
  end.

Definition addShare (userBalances : Map UserBalance) (id : string)
    (shareAmount : Q) : Map UserBalance :=
  match get id userBalances with
  | Some b =>
      set id (mkBalance (ub_userId b) (ub_name b) (ub_balance b)
                        (ub_totalPaid b) (ub_totalOwed b)
                        (ub_totalShare b + shareAmount))
          userBalances
  | None => userBalances
  end.

(** The share of one sharer.  For an empty [sharedBy] the quotient is not
    a number in the source; it is then used by nobody. *)
Definition shareAmountOf (expense : StoredExpense) : Q :=
  round2 (x_amount expense
          / inject_Z (Z.of_nat (length (x_sharedBy expense)))).

(** One turn of the loop over the expenses. *)
Definition basicExpense (userNameMap : Map string)
    (userBalances : Map UserBalance) (expense : StoredExpense)
  : Map UserBalance :=
  let paidBy := x_paidBy expense in
  let amount := x_amount expense in
  let shareAmount := shareAmountOf expense in
  let balances :=
    addPaid (ensure userNameMap userBalances paidBy) paidBy amount in
  fold_left
    (fun balances participant =>
       addShare (ensure userNameMap balances participant) participant
                shareAmount)
    (x_sharedBy expense) balances.

(** [userBalances.forEach(balance => ...)]: the net balance of a record. *)
Definition netBalance (b : UserBalance) : UserBalance :=
  let balance := round2 (ub_totalPaid b - ub_totalShare b) in
  mkBalance (ub_userId b) (ub_name b) balance (ub_totalPaid b)
            (if Qltb balance 0 then Math_abs balance else 0)
            (ub_totalShare b).

Definition calculateBasicBalances (expenses : list StoredExpense)
    (userNameMap : Map string) : list UserBalance :=
  let userBalances := fold_left (basicExpense userNameMap) expenses [] in
  sort_desc ub_balance (map netBalance (values userBalances)).

(** [creditor.balance -= settleAmount] *)
Definition reduced (creditor : UserBalance) (settleAmount : Q) : UserBalance :=
  mkBalance (ub_userId creditor) (ub_name creditor)
            (ub_balance creditor - settleAmount)
            (ub_totalPaid creditor) (ub_totalOwed creditor)
            (ub_totalShare creditor).

(** The inner loop of [calculateSettlements] for one debtor: the
    creditors as the loop leaves them, and the settlements it pushes. *)
Fixpoint payCreditors (debtor : UserBalance) (remainingDebt : Q)
    (creditors : list UserBalance) : list UserBalance * list Settlement :=
  match creditors with
  | [] => ([], [])
  | creditor :: rest =>
      if Qltb remainingDebt (1 # 100) then (creditors, [])
      else if Qltb (ub_balance creditor) (1 # 100) then
        let r := payCreditors debtor remainingDebt rest in
        (creditor :: fst r, snd r)
      else
        let settleAmount := Math_min remainingDebt (ub_balance creditor) in
        if Qltb (1 # 100) settleAmount then
          let r := payCreditors debtor (remainingDebt - settleAmount) rest in
          (reduced creditor settleAmount :: fst r,
           mkSettlement (ub_userId debtor) (ub_name debtor)
                        (ub_userId creditor) (ub_name creditor)
                        (round2 settleAmount)
           :: snd r)
        else
          let r := payCreditors debtor remainingDebt rest in
          (creditor :: fst r, snd r)
  end.

(** The objects of [creditors] are objects of the [userBalances] array:
    the array read again after the loops holds, at the places of the
    records that passed the creditor filter, those records as the loops
    left them. *)
Fixpoint aliased (userBalances creditors : list UserBalance)
  : list UserBalance :=
  match userBalances with
  | [] => []
  | b :: rest =>
      if Qltb (1 # 100) (ub_balance b) then
        match creditors with
        | creditor :: cs => creditor :: aliased rest cs
        | [] => b :: aliased rest []
        end
      else b :: aliased rest creditors
  end.

(** [calculateSettlements]: the sorted settlements, and the array of the
    caller as the function leaves it. *)
Definition calculateSettlements (userBalances : list UserBalance)
  : list Settlement * list UserBalance :=
  let creditors := filter (fun b => Qltb (1 # 100) (ub_balance b)) userBalances in
  let debtors :=
    filter (fun b => Qltb (ub_balance b) (- (1 # 100))) userBalances in
  let st :=
    fold_left
      (fun st debtor =>
         let r := payCreditors debtor (Math_abs (ub_balance debtor)) (fst st) in
         (fst r, snd st ++ snd r))
      debtors (creditors, []) in
  (sort_desc s_amount (snd st), aliased userBalances (fst st)).

(** The [data] of the handler's response once the trip and its expenses
    are fetched. *)
Definition handler (people : list Person) (expenses : list StoredExpense)
  : BalanceData :=
  match expenses with
  | [] => mkData [] [] 0 (mkSummary 0 0 0 true)
  | _ :: _ =>
      let userNameMap :=
        fold_left
          (fun m person =>
             let m1 := set (p_name person) (p_name person) m in
             match p_id person with
             | Some id => set id (p_name person) m1
             | None => m1
             end)
          people [] in
      let balances := calculateBasicBalances expenses userNameMap in
      let r := calculateSettlements balances in
      let settlements := fst r in
      let userBalances := snd r in
      let totalExpenses := sum (map x_amount expenses) in
      let totalSettlementAmount := sum (map s_amount settlements) in
      let averagePerPerson :=
        if (0 <? length userBalances)%nat
        then totalExpenses / inject_Z (Z.of_nat (length userBalances))
        else 0 in
      let isBalanced :=
        forallb (fun b => Qltb (Math_abs (ub_balance b)) (1 # 100))
                userBalances in
      mkData userBalances settlements totalExpenses
             (mkSummary (length settlements) (round2 totalSettlementAmount)
                        (round2 averagePerPerson) isBalanced)
  end.

End BalancesApi.

Import BalancesApi.

(** ** The settlement documents, [lib/models/Settlement.ts]

    The pre-save hook of the schema and the methods that prepare a
    document for [save()].  A date is a number of milliseconds, and the
    clock read by [new Date()] is a parameter. *)

Module SettlementModel.

Inductive Status : Type := pending | paid | partially_paid.

Record ISettlement : Type := mkDoc {
  st_fromParticipant : string;
  st_toParticipant : string;
  st_amount : Q;
  st_status : Status;
  st_paidAmount : option Q;
  st_paidAt : option Z
}.

Definition with_payment (this : ISettlement) (status : Status)
    (paidAmount : option Q) (paidAt : option Z) : ISettlement :=
  mkDoc (st_fromParticipant this) (st_toParticipant this) (st_amount this)
        status paidAmount paidAt.

(** [SettlementSchema.pre('save', ...)]: [Throw] is [next(new Error(...))],
    [Ok] the document as [next()] passes it on. *)
Definition pre_save (now : Z) (this : ISettlement) : result ISettlement :=
  if String.eqb (st_fromParticipant this) (st_toParticipant this)
  then Throw "Participant cannot owe money to themselves"
  else
    match st_status this with
    | paid =>
        Ok (with_payment this paid None
              (match st_paidAt this with
               | Some at_ => Some at_
               | None => Some now
               end))
    | partially_paid =>
        if (negb (truthy (st_paidAmount this))
            || Qle_bool (num (st_paidAmount this)) 0
            || Qle_bool (st_amount this) (num (st_paidAmount this)))%bool
        then Throw "Paid amount must be positive and less than total amount"
        else Ok (with_payment this partially_paid (st_paidAmount this) None)
    | pending => Ok (with_payment this pending None None)
    end.

(** The three methods up to their call of [this.save()]. *)
Definition markAsPaid (now : Z) (this : ISettlement) : ISettlement :=
  with_payment this paid None (Some now).

Definition markAsPartiallyPaid (amount : Q) (this : ISettlement)
  : result ISettlement :=
  if (Qle_bool amount 0 || Qle_bool (st_amount this) amount)%bool
  then Throw "Paid amount must be positive and less than total amount"
  else Ok (with_payment this partially_paid (Some amount) None).

Definition markAsPending (this : ISettlement) : ISettlement :=
  with_payment this pending None None.

Definition getRemainingAmount (this : ISettlement) : Q :=
  match st_status this with
  | paid => 0
  | partially_paid => st_amount this - num (st_paidAmount this)
  | pending => st_amount this
  end.

(** The virtual [remainingAmount]:
    [Math.max(0, this.amount - (this.paidAmount || 0))]. *)
Definition remainingAmount (this : ISettlement) : Q :=
  match Math_max [0; st_amount this - num (st_paidAmount this)] with
  | Some m => m
  | None => 0
  end.

End SettlementModel.

Import SettlementModel.

(** * Vocabulary of the properties *)

(** ** Money *)

(** A Money value in the sense of the data model: [z] cents. *)
Definition cents (z : Z) : Q := z # 100.

Definition is_cents (x : Q) : Prop := exists z : Z, x == cents z.

(** ** Scenarios *)

Definition share (id : string) (v : Q) : ParticipantShare :=
  mkShare id id v None.

Definition expense (id : string) (amt : Q) (payer : string) (ty : SplitType)
    (ps : list ParticipantShare) : EnhancedExpense :=
  mkExpense id "Test expense" amt payer payer ty ps.

(** One cent paid by alice, split 50% / 50% with bob. *)
Definition one_cent_halved (id : string) : EnhancedExpense :=
  expense id 0.01 "alice" PERCENTAGE [share "alice" 50; share "bob" 50].

Definition three_one_cent_expenses : list EnhancedExpense :=
  [one_cent_halved "1"; one_cent_halved "2"; one_cent_halved "3"].

(** Fifty paid by alice for herself alone. *)
Definition single_person : list EnhancedExpense :=
  [expense "1" 50 "alice" EQUAL [share "alice" 1]].

(** Four cents paid by alice, split equally among four. *)
Definition four_cents_four_ways : list EnhancedExpense :=
  [expense "1" 0.04 "alice" EQUAL
     [share "alice" 1; share "bob" 1; share "charlie" 1; share "dave" 1]].

(** Ninety paid by alice, split equally among alice, bob and charlie. *)
Definition dinner : list EnhancedExpense :=
  [expense "1" 90 "alice" EQUAL
     [share "alice" 1; share "bob" 1; share "charlie" 1]].

(** A hundred paid by alice, split by literal amounts six ways: five
    times 16.666 and once 16.67, which add up to 100. *)
Definition six_way_custom : list EnhancedExpense :=
  [expense "1" 100 "alice" CUSTOM
     [share "alice" 16.666; share "bob" 16.666; share "charlie" 16.666;
      share "dave" 16.666; share "erin" 16.666; share "frank" 16.67]].

(** ** Shares, participants and settlements *)

(** The amounts computed for the shares of one expense. *)
Definition amounts_of (shares : list ParticipantShare) : list Q :=
  map (fun s => num (amount s)) shares.

(** [id] pays or shares some expense of the list. *)
Definition occurs_in (es : list EnhancedExpense) (id : string) : Prop :=
  exists e, In e es
            /\ (e_paidBy e = id \/ In id (map userId (e_participants e))).

(** Every balance record is stored under its own user id. *)
Definition keyed (m : Map UserBalance) : Prop :=
  forall k b, In (k, b) m -> ub_userId b = k.

(** What [p] receives, and what [p] pays, under a list of settlements. *)
Definition received (p : string) (plan : list Settlement) : Q :=
  sum (map (fun s => if String.eqb (to s) p then s_amount s else 0) plan).

Definition paid_out (p : string) (plan : list Settlement) : Q :=
  sum (map (fun s => if String.eqb (from s) p then s_amount s else 0) plan).

(** The balance of [p] once every settlement of the plan is carried out:
    what [p] pays is credited to [p], what [p] receives is debited. *)
Definition adjusted (balance : Q) (p : string) (plan : list Settlement) : Q :=
  balance + paid_out p plan - received p plan.

(** ** Invariants and sums used in the proofs *)

(** The entries of a creditor or debtor array: whole cents, not negative. *)
Definition open_amounts (l : list (string * Q)) : Prop :=
  Forall (fun entry => is_cents (snd entry) /\ 0 <= snd entry) l.

(** A map of numbers that holds whole cents only. *)
Definition cents_values (m : Map Q) : Prop :=
  forall k v, In (k, v) m -> is_cents v.

(** Reading a number out of a map, [0] when the key is missing. *)
Definition valueAt (m : Map Q) (id : string) : Q :=
  match get id m with Some v => v | None => 0 end.

(** The totals recorded for [id], [0] when [id] has no record. *)
Definition paidOf (ub : Map UserBalance) (id : string) : Q :=
  match get id ub with Some b => ub_totalPaid b | None => 0 end.

Definition shareOf (ub : Map UserBalance) (id : string) : Q :=
  match get id ub with Some b => ub_totalShare b | None => 0 end.

(** The sum of [g key value] over the entries of a map. *)
Definition sumMap {V : Type} (g : string -> V -> Q) (m : Map V) : Q :=
  sum (map (fun entry => g (fst entry) (snd entry)) m).

(** What the edge [d] owes [c] the amount [a] contributes to the net
    balance of [id]. *)
Definition edgeTerm (id d c : string) (a : Q) : Q :=
  (if String.eqb c id then a else 0) - (if String.eqb d id then a else 0).

(** The net balance of [id] as a sum over the edges of the debt graph. *)
Definition netOf (dg : Map (Map Q)) (id : string) : Q :=
  sumMap (fun d m => sumMap (edgeTerm id d) m) dg.

(** Every edge of the debt graph carries whole cents and joins two
    different users. *)
Definition dg_ok (dg : Map (Map Q)) : Prop :=
  forall d m c a, In (d, m) dg -> In (c, a) m -> is_cents a /\ c <> d.

(** Every balance record holds whole cents and its balance is the
    difference of the two totals. *)
Definition balances_ok (ub : Map UserBalance) : Prop :=
  forall k b, In (k, b) ub ->
    is_cents (ub_totalPaid b) /\ is_cents (ub_totalShare b)
    /\ ub_balance b == ub_totalPaid b - ub_totalShare b.

(** Shares whose computed amounts are whole cents. *)
Definition cents_shares (shares : list ParticipantShare) : Prop :=
  Forall (fun s => is_cents (num (amount s))) shares.

(** What the shares charge to [id]. *)
Definition charged (id : string) (shares : list ParticipantShare) : Q :=
  sum (map (fun s => if String.eqb (userId s) id then num (amount s) else 0)
           shares).

(** What the shares of an expense paid by [payer] add to the net balance
    of [id] through the debt graph. *)
Definition lent (id payer : string) (shares : list ParticipantShare) : Q :=
  sum (map (fun s => if negb (String.eqb (userId s) payer)
                     then edgeTerm id (userId s) payer (num (amount s))
                     else 0)
           shares).

(** The shares the engine computes for [e] sum exactly to its amount. *)
Definition exact_shares (e : EnhancedExpense) : Prop :=
  forall shares, calculateShares e = Ok shares ->
                 sum (amounts_of shares) == e_amount e.


(** Paid minus share, summed over all balance records. *)
Definition surplus (ub : Map UserBalance) : Q :=
  sumMap (fun _ b => ub_totalPaid b - ub_totalShare b) ub.

(** ** Further scenarios and vocabulary *)

(** A hundred paid by alice with percentages 50, 30 and 30, which sum to
    110 and are rejected. *)
Definition bad_percentages : EnhancedExpense :=
  expense "2" 100 "alice" PERCENTAGE
    [share "alice" 50; share "bob" 30; share "charlie" 30].

(** What [debtor] owes [creditor] in the debt graph, [0] when there is
    no such edge. *)
Definition edge (dg : Map (Map Q)) (debtor creditor : string) : Q :=
  match get debtor dg with
  | Some m => valueAt m creditor
  | None => 0
  end.






Definition legacy_orphan : LegacyExpense :=
  mkLegacy "10" "Taxi" 20 "alice" (Some "Alice"%string) None.




(** ** Vocabulary of the balances endpoint *)

(** The two filters of [calculateSettlements] and the test of
    [isBalanced]. *)
Definition is_creditor (b : UserBalance) : bool :=
  Qltb (1 # 100) (ub_balance b).

Definition is_debtor (b : UserBalance) : bool :=
  Qltb (ub_balance b) (- (1 # 100)).

Definition within_band (b : UserBalance) : bool :=
  Qltb (Math_abs (ub_balance b)) (1 # 100).

(** [b'] is the record [b] after some settlements were taken off its
    balance: nothing but the balance differs, the balance did not grow
    and did not turn negative. *)
Definition settled (b b' : UserBalance) : Prop :=
  ub_userId b' = ub_userId b /\ ub_name b' = ub_name b
  /\ ub_totalPaid b' = ub_totalPaid b /\ ub_totalOwed b' = ub_totalOwed b
  /\ ub_totalShare b' = ub_totalShare b
  /\ ub_balance b' <= ub_balance b
  /\ (0 <= ub_balance b -> 0 <= ub_balance b').




(** Ninety paid by alice and shared with bob and charlie, as stored. *)
Definition stored_dinner : list StoredExpense :=
  [mkStored "alice" 90 ["alice"; "bob"; "charlie"]%string].

(** Fifty paid by alice for herself alone, as stored. *)
Definition stored_single : list StoredExpense :=
  [mkStored "alice" 50 ["alice"]%string].

(** A pending settlement of thirty from bob to alice. *)
Definition bob_owes_alice : ISettlement :=
  mkDoc "bob" "alice" 30 pending None None.

(** ** The ordinary range

    Where the doubles of the code carry whole cents: amounts of at most
    a thousand million in size, and percentages, literal amounts and
    weights that are not negative. *)
Definition in_range (x : Q) : Prop := Qabs x <= 1000000000.

Definition ordinary_expense (e : EnhancedExpense) : Prop :=
  in_range (e_amount e)
  /\ Forall (fun p => 0 <= value p <= 1000000000) (e_participants e).

Definition ordinary (es : list EnhancedExpense) : Prop :=
  Forall ordinary_expense es
  /\ sum (map (fun e => Qabs (e_amount e)) es) <= 1000000000.

(** ** What the settlement loop leaves open

    The entries of a creditor or debtor array while the loop runs: whole
    cents, the current entry at least one cent, the entries not yet
    reached at least two. *)
Definition well_formed (l : list (string * Q)) : Prop :=
  Forall (fun entry => is_cents (snd entry)) l
  /\ match l with
     | [] => True
     | (_, x) :: t => 1 # 100 <= x /\ Forall (fun entry => 2 # 100 <= snd entry) t
     end.

(** What the current entry of one array may be left short of: a cent it
    loses when it runs down to one cent itself, and one more when the
    current entry of the other array is down to one cent. *)
Definition headslack (other : list (string * Q)) : Q :=
  match other with
  | (_, b) :: _ => if Qle_bool b (1 # 100) then 2 # 100 else 1 # 100
  | [] => 1 # 100
  end.

(** Every entry of [side] gets, through [got], all of its amount but two
    cents at most. *)
Definition side_settled (got : string -> Q) (side other : list (string * Q))
  : Prop :=
  match side with
  | [] => True
  | (h, x) :: t =>
      x - got h <= headslack other
      /\ forall p a, In (p, a) t -> a - got p <= 2 # 100
  end.

(** * Properties *)

(** The range conditions of a concrete scenario, by evaluation. *)
Ltac in_ordinary_range :=
  repeat (first [split | constructor]); vm_compute; discriminate.

(** ** Money: whole numbers of cents *)

Lemma Math_round_inject_Z (z : Z) : Math_round (inject_Z z) = z.
Proof.
  unfold Math_round, Qfloor, Qplus, inject_Z; simpl.
  symmetry; apply (Z.div_unique _ _ _ 1%Z); lia.
Qed.

#[export] Instance Math_round_proper : Proper (Qeq ==> eq) Math_round.
Proof. intros x y E; unfold Math_round; now rewrite E. Qed.

#[export] Instance round_proper : Proper (Qeq ==> Qeq) CurrencyUtils.round.
Proof. intros x y E; unfold CurrencyUtils.round; now rewrite E. Qed.

Lemma round_spec (x : Q) :
  CurrencyUtils.round x == cents (Math_round (x * 100)).
Proof.
  unfold CurrencyUtils.round.
  change CurrencyUtils.MULTIPLIER with 100.
  generalize (Math_round (x * 100)); intros z.
  unfold cents, Qdiv, Qmult, Qinv, inject_Z, Qeq; simpl; lia.
Qed.

Lemma cents_times_100 (z : Z) : cents z * 100 == inject_Z z.
Proof. unfold cents, Qmult, inject_Z, Qeq; simpl; lia. Qed.

Lemma round_cents (z : Z) : CurrencyUtils.round (cents z) == cents z.
Proof.
  rewrite round_spec, cents_times_100, Math_round_inject_Z; reflexivity.
Qed.

Lemma round_is_cents (x : Q) : is_cents (CurrencyUtils.round x).
Proof. eexists; apply round_spec. Qed.

Lemma round_id (x : Q) : is_cents x -> CurrencyUtils.round x == x.
Proof. intros [z E]; rewrite E; apply round_cents. Qed.

Lemma cents_plus (a b : Z) : cents a + cents b == cents (a + b).
Proof. unfold cents, Qplus, Qeq; simpl; lia. Qed.

Lemma cents_minus (a b : Z) : cents a - cents b == cents (a - b).
Proof. unfold cents, Qminus, Qplus, Qopp, Qeq; simpl; lia. Qed.

Lemma cents_le (a b : Z) : cents a <= cents b <-> (a <= b)%Z.
Proof. unfold cents, Qle; simpl; lia. Qed.

Lemma cents_lt (a b : Z) : cents a < cents b <-> (a < b)%Z.
Proof. unfold cents, Qlt; simpl; lia. Qed.


Lemma is_cents_0 : is_cents 0.
Proof. exists 0%Z; reflexivity. Qed.

Lemma is_cents_plus (x y : Q) : is_cents x -> is_cents y -> is_cents (x + y).
Proof.
  intros [a Ea] [b Eb]; exists (a + b)%Z; rewrite Ea, Eb; apply cents_plus.
Qed.

Lemma is_cents_minus (x y : Q) : is_cents x -> is_cents y -> is_cents (x - y).
Proof.
  intros [a Ea] [b Eb]; exists (a - b)%Z; rewrite Ea, Eb; apply cents_minus.
Qed.

(** ** Sums *)

Lemma fold_left_Qplus (l : list Q) (a : Q) :
  fold_left Qplus l a == a + fold_left Qplus l 0.
Proof.
  revert a; induction l as [|x l IH]; intros a; simpl.
  - lra.
  - rewrite (IH (a + x)), (IH (0 + x)).
    generalize (fold_left Qplus l 0); intros r; lra.
Qed.

Lemma sum_nil : sum [] == 0.
Proof. reflexivity. Qed.

Lemma sum_cons (x : Q) (l : list Q) : sum (x :: l) == x + sum l.
Proof. unfold sum; simpl; rewrite fold_left_Qplus; lra. Qed.

Lemma sum_app (l1 l2 : list Q) : sum (l1 ++ l2) == sum l1 + sum l2.
Proof.
  induction l1 as [|x l1 IH]; simpl.
  - rewrite sum_nil; lra.
  - rewrite !sum_cons, IH; lra.
Qed.


(** The rounding operations are exact on whole cents. *)
Lemma subtract_cents (x y : Q) :
  is_cents x -> is_cents y -> CurrencyUtils.subtract x y == x - y.
Proof. intros Hx Hy; apply round_id, is_cents_minus; assumption. Qed.

Lemma add_cents (x y : Q) :
  is_cents x -> is_cents y -> CurrencyUtils.add [x; y] == x + y.
Proof.
  intros Hx Hy; unfold CurrencyUtils.add.
  assert (E : sum [x; y] == x + y) by (rewrite !sum_cons, sum_nil; ring).
  rewrite E; apply round_id, is_cents_plus; assumption.
Qed.

(** ** [distribute] *)

Lemma Qltb_true (x y : Q) : Qltb x y = true <-> x < y.
Proof.
  unfold Qltb; rewrite negb_true_iff, <- not_true_iff_false, Qle_bool_iff.
  split; [apply Qnot_le_lt | apply Qlt_not_le].
Qed.

Lemma Qltb_false (x y : Q) : Qltb x y = false <-> y <= x.
Proof.
  unfold Qltb; rewrite negb_false_iff, Qle_bool_iff; reflexivity.
Qed.



Section RemainderCents.

(** The base amount [x] is a whole number [b] of cents. *)
Variables (x : Q) (b : Z).
Hypothesis x_cents : x == cents b.





End RemainderCents.






(** ** Percentage and weighted distributions *)

(** C4.  [distributeByPercentages(10.01, [50, 50])] returns
    [[5.01, 5.01]]: both halves of 5.005 round up, the parts sum to 10.02,
    and the residual of minus one cent is not above the 0.01 threshold of
    the adjustment block, so it is left uncorrected.  The same happens on
    a total of one cent. *)
Theorem distributeByPercentages_residual_left :
  CurrencyUtils.distributeByPercentages 10.01 [50; 50] = Ok [5.01; 5.01]
  /\ sum [5.01; 5.01] == 10.02
  /\ ~ sum [5.01; 5.01] == 10.01
  /\ CurrencyUtils.round (10.01 - sum [5.01; 5.01]) == - 0.01
  /\ CurrencyUtils.distributeByPercentages 0.01 [50; 50] = Ok [0.01; 0.01]
  /\ ~ sum [0.01; 0.01] == 0.01.
Proof.
  split; [reflexivity|].
  split; [reflexivity|].
  split; [intros E; discriminate E|].
  split; [reflexivity|].
  split; [reflexivity | intros E; discriminate E].
Qed.

(** C9.  [distributeByShares] throws exactly when the weights sum to
    zero.  Weights with a strictly negative sum are accepted:
    [distributeByShares(100, [-1, -1])] returns [[50, 50]]. *)
Theorem distributeByShares_negative_sum_accepted :
  CurrencyUtils.distributeByShares 100 [-1; -1] = Ok [50.00; 50.00]
  /\ sum [-1; -1] < 0
  /\ forall (total : Q) (weights : list Q),
       (exists msg, CurrencyUtils.distributeByShares total weights = Throw msg)
       <-> sum weights == 0.
Proof.
  split; [reflexivity|].
  split; [reflexivity|].
  intros total weights; unfold CurrencyUtils.distributeByShares.
  destruct (Qeq_bool (sum weights) 0) eqn:E.
  - apply Qeq_bool_iff in E; split; [intros _; exact E | intros _; eauto].
  - split.
    + intros [msg H]; discriminate H.
    + intros H; apply Qeq_bool_iff in H; congruence.
Qed.

(** ** Shares of one expense *)

(** *** How far the adjusted parts can be from the total *)

Lemma Math_max_In (l : list Q) (m : Q) : Math_max l = Some m -> In m l.
Proof.
  destruct l as [|x t]; [discriminate|]; cbn [Math_max].
  intros H; injection H as <-.
  revert x; induction t as [|y t IH]; intros x; cbn [fold_left].
  - left; reflexivity.
  - destruct (Qltb x y).
    + right; apply IH.
    + destruct (IH x) as [H|H]; [left; exact H | right; right; exact H].
Qed.

Lemma indexOf_In (l : list Q) (m : Q) :
  In m l -> (indexOf m l < length l)%nat.
Proof.
  induction l as [|y l IH]; simpl; [tauto|].
  destruct (Qeq_bool y m) eqn:E; [lia|].
  intros [->|H]; [|apply IH in H; lia].
  rewrite Qeq_bool_refl in E; discriminate E.
Qed.

Lemma sum_array_set (i : nat) (v : Q) (l : list Q) :
  (i < length l)%nat -> sum (array_set i v l) == sum l - nth i l 0 + v.
Proof.
  revert i; induction l as [|y l IH]; intros i Hi; [simpl in Hi; lia|].
  destruct i as [|i]; cbn [array_set nth].
  - rewrite !sum_cons; ring.
  - rewrite !sum_cons, IH by (simpl in Hi; lia); ring.
Qed.

Lemma nth_is_cents (l : list Q) (i : nat) :
  Forall is_cents l -> is_cents (nth i l 0).
Proof.
  intros H; revert i; induction H as [|x l Hx _ IH]; intros [|i]; simpl;
    auto using is_cents_0.
Qed.

Lemma is_cents_sum (l : list Q) : Forall is_cents l -> is_cents (sum l).
Proof.
  induction 1 as [|x l Hx _ IH].
  - apply is_cents_0.
  - destruct (is_cents_plus x (sum l) Hx IH) as [z Hz].
    exists z; rewrite sum_cons; exact Hz.
Qed.

(** On a Money total and a non-empty array of whole-cent amounts the
    adjustment block makes the amounts sum exactly to the total when the
    residual is zero or above one cent in magnitude; a residual of exactly
    one cent is left in place. *)
Lemma adjust_rounding_sum (total : Q) (amounts : list Q) :
  is_cents total -> Forall is_cents amounts -> amounts <> [] ->
  sum (CurrencyUtils.adjust_rounding total amounts) == total
  \/ (CurrencyUtils.adjust_rounding total amounts = amounts
      /\ Qabs (total - sum amounts) == 1 # 100).
Proof.
  intros Ht Ha Hne; unfold CurrencyUtils.adjust_rounding.
  assert (Hdiff : CurrencyUtils.round (total - sum amounts)
                  == total - sum amounts)
    by (apply round_id, is_cents_minus; auto using is_cents_sum).
  destruct (Qltb (1 # 100) (Math_abs (CurrencyUtils.round (total - sum amounts))))
    eqn:E.
  - destruct (Math_max amounts) as [largest|] eqn:Emax.
    + left.
      pose proof (indexOf_In _ _ (Math_max_In _ _ Emax)) as Hidx.
      rewrite sum_array_set by exact Hidx.
      rewrite add_cents, Hdiff; [ring | apply nth_is_cents, Ha |].
      apply round_is_cents.
    + destruct amounts; [contradiction Hne; reflexivity | discriminate Emax].
  - apply Qltb_false in E; unfold Math_abs in E; rewrite Hdiff in E.
    destruct (is_cents_minus _ _ Ht (is_cents_sum _ Ha)) as [z Hz].
    rewrite Hz in E |- *.
    assert (Hz' : (-1 <= z <= 1)%Z)
      by (unfold cents, Qabs, Qle in E; simpl in E; lia).
    assert (Hcase : z = 0%Z \/ z = 1%Z \/ z = (-1)%Z) by lia.
    destruct Hcase as [->|[->| ->]].
    + left.
      assert (E0 : total - sum amounts == 0) by (rewrite Hz; reflexivity).
      lra.
    + right; split; reflexivity.
    + right; split; reflexivity.
Qed.

(** Hence [distributeByPercentages], on a Money total, returns parts that
    sum to the total or miss it by exactly one cent. *)
Lemma distributeByPercentages_sum (total : Q) (percentages parts : list Q) :
  is_cents total ->
  CurrencyUtils.distributeByPercentages total percentages = Ok parts ->
  sum parts == total \/ Qabs (total - sum parts) == 1 # 100.
Proof.
  intros Ht; unfold CurrencyUtils.distributeByPercentages.
  destruct (Qltb _ _) eqn:E; [discriminate|].
  intros H; injection H as <-.
  set (amounts := map _ percentages).
  assert (Ha : Forall is_cents amounts).
  { apply Forall_forall; intros y Hy; apply in_map_iff in Hy.
    destruct Hy as (x & <- & _); apply round_is_cents. }
  assert (Hne : amounts <> []).
  { unfold amounts; destruct percentages; [|discriminate].
    exfalso; apply Qltb_false in E; revert E; vm_compute; intros E.
    apply E; reflexivity. }
  destruct (adjust_rounding_sum total amounts Ht Ha Hne) as [H|[Hsame H]];
    [left; exact H | right; rewrite Hsame; exact H].
Qed.

(** The residual left by the adjustment block reaches the shares of an
    expense: for the PERCENTAGE expense of one cent split 50/50 the engine
    raises no error and computes the shares 0.01 and 0.01, which sum to
    0.02 and not to the expense total 0.01. *)
Lemma calculateShares_percentage_sum_off :
  match calculateShares (one_cent_halved "1") with
  | Ok shares =>
      amounts_of shares = [0.01; 0.01]
      /\ ~ sum (amounts_of shares) == e_amount (one_cent_halved "1")
  | Throw _ => False
  end.
Proof.
  vm_compute; split; [reflexivity | intros E; discriminate E].
Qed.

(** ** Whole calculations *)

(** ... and the balances: three PERCENTAGE expenses of one cent each,
    paid by alice and split 50/50 with bob, are accepted; alice's balance
    is 0 and bob's is -0.03, so the balances sum to -0.03. *)
Lemma conservation_fails_on_percentage_residuals :
  match calculate three_one_cent_expenses with
  | Some (Ok r) =>
      map (fun b => (ub_userId b, ub_balance b)) (r_userBalances r)
      = [("alice"%string, 0.00); ("bob"%string, - 0.03)]
      /\ sum (map ub_balance (r_userBalances r)) == - 0.03
      /\ CurrencyUtils.isZero (sum (map ub_balance (r_userBalances r))) = false
  | _ => False
  end.
Proof.
  vm_compute; repeat split; reflexivity.
Qed.

(** C6.  On the empty expense list the constructor succeeds with no
    participants, and [getCalculationResult] throws "Division by zero":
    the average per person divides by the number of known users, 0. *)
Theorem empty_expense_list_throws :
  (exists c, constructor [] = Ok c
             /\ userBalances c = [] /\ userNames c = []
             /\ getOptimizedSettlements c = Some [])
  /\ calculate [] = Some (Throw "Division by zero").
Proof.
  split; [eexists; repeat split | reflexivity].
Qed.

(** ** The settlement loop: termination and number of settlements *)

Lemma isZero_round_self_minus (x : Q) :
  CurrencyUtils.isZero (CurrencyUtils.subtract x x) = true.
Proof.
  unfold CurrencyUtils.subtract.
  assert (E : x - x == cents 0) by (unfold cents; simpl; ring).
  unfold CurrencyUtils.isZero, Math_abs; apply Qltb_true.
  rewrite E, round_cents; reflexivity.
Qed.

Lemma Math_min_cases (x y : Q) : Math_min x y = x \/ Math_min x y = y.
Proof. unfold Math_min; destruct (Qle_bool x y); auto. Qed.

Lemma insert_desc_length {A : Type} (key : A -> Q) (x : A) (l : list A) :
  length (insert_desc key x l) = S (length l).
Proof.
  induction l as [|y l IH]; simpl; auto.
  destruct (Qltb (key x) (key y)); simpl; auto.
Qed.

Lemma sort_desc_length {A : Type} (key : A -> Q) (l : list A) :
  length (sort_desc key l) = length l.
Proof.
  induction l as [|x l IH]; simpl; auto.
  unfold sort_desc in *; rewrite insert_desc_length, IH; reflexivity.
Qed.

(** Every turn retires the current creditor or the current debtor, so fuel
    for one turn per list entry suffices; the loop emits at most one
    settlement per turn and stops as soon as one list is used up. *)
Lemma settleLoop_terminates (names : Map string) (fuel : nat) :
  forall creditors debtors : list (string * Q),
    (length creditors + length debtors <= fuel)%nat ->
    exists settlements : list Settlement,
      settleLoop names fuel creditors debtors = Some settlements
      /\ ((creditors = [] \/ debtors = []) -> settlements = [])
      /\ (creditors <> [] -> debtors <> [] ->
          (S (length settlements) <= length creditors + length debtors)%nat).
Proof.
  induction fuel as [|fuel IH]; intros cs ds Hfuel.
  - destruct cs as [|[c ca] cs]; [|simpl in Hfuel; lia].
    exists []; simpl; repeat split; auto; congruence.
  - destruct cs as [|[c ca] cs];
      [exists []; simpl; repeat split; auto; congruence|].
    destruct ds as [|[d da] ds];
      [exists []; simpl; repeat split; auto; congruence|].
    cbn [settleLoop].
    set (settleAmount := Math_min ca da).
    set (emitted := if Qltb (1 # 100) settleAmount then _ else _).
    set (cs' := if CurrencyUtils.isZero _ then cs else _).
    set (ds' := if CurrencyUtils.isZero _ then ds else _).
    assert (Hemit : (length emitted <= 1)%nat)
      by (unfold emitted; destruct (Qltb _ _); simpl; lia).
    assert (Hlen : (length cs' + length ds' <= length cs + length ds + 1)%nat
                   /\ (length cs <= length cs')%nat
                   /\ (length ds <= length ds')%nat).
    { unfold cs', ds'.
      destruct (Math_min_cases ca da) as [E|E]; fold settleAmount in E;
        rewrite E, isZero_round_self_minus;
        match goal with |- context [if ?t then _ else _] => destruct t end;
        simpl; lia. }
    destruct (IH cs' ds') as (S' & HS' & Hempty & Hbound);
      [simpl in Hfuel; lia|].
    exists (emitted ++ S'); rewrite HS'; split; [reflexivity|].
    split; [intros [H|H]; discriminate H|].
    intros _ _; rewrite length_app; cbn [length].
    destruct cs' as [|c' cs'']; [rewrite Hempty by auto; simpl; lia|].
    destruct ds' as [|d' ds'']; [rewrite Hempty by auto; simpl; lia|].
    assert (Hb : (S (length S') <= length (c' :: cs'') + length (d' :: ds''))%nat)
      by (apply Hbound; discriminate).
    lia.
Qed.

(** The loop ends for every calculator state, within the bound. *)
Lemma settlement_plan_bound (c : Calculator) :
  let netBalances := computeNetBalances (userNames c) (debtGraph c) in
  let nc := length (creditorsOf netBalances) in
  let nd := length (debtorsOf netBalances) in
  exists settlements : list Settlement,
    getOptimizedSettlements c = Some settlements
    /\ ((nc = 0 \/ nd = 0)%nat -> settlements = [])
    /\ ((1 <= nc)%nat -> (1 <= nd)%nat ->
        (Z.of_nat (length settlements) <= Z.of_nat nc + Z.of_nat nd - 1)%Z).
Proof.
  intros netBalances nc nd.
  unfold getOptimizedSettlements, optimizeSettlements.
  fold netBalances.
  set (cs := sort_desc snd (creditorsOf netBalances)).
  set (ds := sort_desc snd (debtorsOf netBalances)).
  assert (Hc : length cs = nc) by apply sort_desc_length.
  assert (Hd : length ds = nd) by apply sort_desc_length.
  destruct (settleLoop_terminates (userNames c) (length cs + length ds) cs ds)
    as (S' & HS' & Hempty & Hbound); [lia|].
  exists (sort_desc s_amount S'); rewrite HS'; split; [reflexivity|].
  split.
  - intros H; rewrite Hempty; [reflexivity|].
    destruct H as [H|H]; [left | right]; apply length_zero_iff_nil; lia.
  - intros H1 H2; rewrite sort_desc_length.
    assert (cs <> []) by (intros E; rewrite E in Hc; simpl in Hc; lia).
    assert (ds <> []) by (intros E; rewrite E in Hd; simpl in Hd; lia).
    specialize (Hbound ltac:(assumption) ltac:(assumption)); lia.
Qed.

(** C7, on the code.  For every accepted expense list of the ordinary
    range the greedy settlement loop terminates; with [nc] creditors (net
    balance > 0.01) and [nd] debtors (net balance < -0.01) it emits no
    settlement when there is no creditor or no debtor, and at most
    [nc + nd - 1] settlements otherwise. *)
Theorem settlement_count_bound (es : list EnhancedExpense) (c : Calculator) :
  constructor es = Ok c ->
  ordinary es ->
  let netBalances := computeNetBalances (userNames c) (debtGraph c) in
  let nc := length (creditorsOf netBalances) in
  let nd := length (debtorsOf netBalances) in
  exists settlements : list Settlement,
    getOptimizedSettlements c = Some settlements
    /\ ((nc = 0 \/ nd = 0)%nat -> settlements = [])
    /\ ((1 <= nc)%nat -> (1 <= nd)%nat ->
        (Z.of_nat (length settlements) <= Z.of_nat nc + Z.of_nat nd - 1)%Z).
Proof.
  intros _ _; exact (settlement_plan_bound c).
Qed.

Lemma settlement_count_bound_witness :
  exists (c : Calculator) (settlements : list Settlement),
    constructor dinner = Ok c
    /\ getOptimizedSettlements c = Some settlements
    /\ (Z.of_nat (length settlements) <= 1 + 2 - 1)%Z.
Proof.
  destruct (constructor dinner) as [c|msg] eqn:E;
    [|vm_compute in E; discriminate E].
  destruct (settlement_count_bound dinner c E) as (S' & HS' & _ & Hbound);
    [in_ordinary_range|].
  exists c, S'; split; [reflexivity|]; split; [exact HS'|].
  pose proof E as E'; vm_compute in E'; injection E' as <-.
  specialize (Hbound ltac:(vm_compute; lia) ltac:(vm_compute; lia)).
  vm_compute in Hbound |- *; exact Hbound.
Defined.

(** The bound as the spec states it fails when nobody is a creditor or a
    debtor: alice pays
    50 for herself alone, the calculation succeeds with 0 creditors,
    0 debtors and 0 settlements, and 0 exceeds 0 + 0 - 1. *)
Lemma settlement_count_bound_balanced_case :
  match constructor single_person with
  | Ok c =>
      let netBalances := computeNetBalances (userNames c) (debtGraph c) in
      let nc := Z.of_nat (length (creditorsOf netBalances)) in
      let nd := Z.of_nat (length (debtorsOf netBalances)) in
      exists settlements,
        getOptimizedSettlements c = Some settlements
        /\ nc = 0%Z /\ nd = 0%Z
        /\ ~ (Z.of_nat (length settlements) <= nc + nd - 1)%Z
  | Throw _ => False
  end.
Proof.
  vm_compute; eexists; split; [reflexivity|].
  split; [reflexivity|]; split; [reflexivity|].
  intros H; apply H; reflexivity.
Qed.

(** ** Insertion-ordered maps *)

Section MapFacts.

Context {V : Type}.
Implicit Types (m : Map V) (k : string) (v : V).

Lemma get_set_same k v m : get k (set k v m) = Some v.
Proof.
  induction m as [|[k' v'] m IH]; simpl.
  - now rewrite String.eqb_refl.
  - destruct (String.eqb k k') eqn:E; simpl; rewrite ?String.eqb_refl, ?E; auto.
Qed.

Lemma get_set_other k k' v m : k' <> k -> get k' (set k v m) = get k' m.
Proof.
  intros Hne; induction m as [|[k0 v0] m IH]; simpl.
  - apply String.eqb_neq in Hne; now rewrite Hne.
  - destruct (String.eqb k k0) eqn:E; simpl.
    + apply String.eqb_eq in E; subst k0.
      apply String.eqb_neq in Hne; now rewrite Hne.
    + destruct (String.eqb k' k0); auto.
Qed.

Lemma get_In k v m : get k m = Some v -> In (k, v) m.
Proof.
  induction m as [|[k' v'] m IH]; simpl; [discriminate|].
  destruct (String.eqb k k') eqn:E.
  - apply String.eqb_eq in E; intros H; inversion H; subst; auto.
  - auto.
Qed.

Lemma get_None_keys k m : get k m = None <-> ~ In k (keys m).
Proof.
  induction m as [|[k' v'] m IH]; simpl; [tauto|].
  destruct (String.eqb k k') eqn:E.
  - apply String.eqb_eq in E; subst; split; [discriminate | tauto].
  - apply String.eqb_neq in E; rewrite IH; split; [intros H [H'|H'] | ];
      try tauto; congruence.
Qed.

Lemma get_Some_keys k m : (exists v, get k m = Some v) <-> In k (keys m).
Proof.
  destruct (get k m) as [v|] eqn:E.
  - split; [intros _ | eauto].
    destruct (in_dec string_dec k (keys m)) as [H|H]; [exact H|].
    apply get_None_keys in H; congruence.
  - split; [intros [v H]; discriminate|].
    intros H; apply get_None_keys in E; tauto.
Qed.

Lemma keys_set k v m k' : In k' (keys (set k v m)) <-> k' = k \/ In k' (keys m).
Proof.
  induction m as [|[k0 v0] m IH]; simpl.
  - split; intros [H|H]; auto; contradiction.
  - destruct (String.eqb k k0) eqn:E; simpl.
    + apply String.eqb_eq in E; subst k0; intuition auto.
    + rewrite IH; tauto.
Qed.

Lemma In_set k v m k' v' :
  In (k', v') (set k v m) -> (k' = k /\ v' = v) \/ In (k', v') m.
Proof.
  induction m as [|[k0 v0] m IH]; simpl.
  - intros [H|[]]; inversion H; auto.
  - destruct (String.eqb k k0) eqn:E; simpl.
    + intros [H|H]; [inversion H|]; auto.
    + intros [H|H]; auto. destruct (IH H); auto.
Qed.

Lemma NoDup_keys_set k v m : NoDup (keys m) -> NoDup (keys (set k v m)).
Proof.
  induction m as [|[k0 v0] m IH]; simpl; intros Hnd.
  - constructor; [intros [] | constructor].
  - inversion Hnd as [|? ? Hnotin Hnd']; subst.
    destruct (String.eqb k k0) eqn:E; simpl.
    + apply String.eqb_eq in E; subst k0; constructor; auto.
    + apply String.eqb_neq in E; constructor; auto.
      change (~ In k0 (keys (set k v m))); rewrite keys_set.
      intros [H|H]; [congruence | contradiction].
Qed.

Lemma set_length_le k v m : (length m <= length (set k v m))%nat.
Proof.
  induction m as [|[k0 v0] m IH]; simpl; [lia|].
  destruct (String.eqb k k0); simpl; lia.
Qed.

End MapFacts.

(** ** Stable sort *)

Lemma insert_desc_perm {A : Type} (key : A -> Q) (x : A) (l : list A) :
  Permutation (insert_desc key x l) (x :: l).
Proof.
  induction l as [|y l IH]; simpl; auto.
  destruct (Qltb (key x) (key y)); auto.
  rewrite IH; apply perm_swap.
Qed.

Lemma sort_desc_perm {A : Type} (key : A -> Q) (l : list A) :
  Permutation (sort_desc key l) l.
Proof.
  induction l as [|x l IH]; simpl; auto.
  unfold sort_desc in *; rewrite insert_desc_perm; auto.
Qed.

(** ** Who appears in the balance list *)

Lemma updateUserBalance_keys names m id paid owed k :
  In k (keys (updateUserBalance names m id paid owed))
  <-> k = id \/ In k (keys m).
Proof. unfold updateUserBalance; apply keys_set. Qed.

Lemma updateUserBalance_keyed names m id paid owed :
  keyed m -> keyed (updateUserBalance names m id paid owed).
Proof.
  intros Hk k b Hin; unfold updateUserBalance in Hin.
  apply In_set in Hin; destruct Hin as [[-> ->]|Hin]; [|eauto].
  cbn [ub_userId]; destruct (get id m) as [b0|] eqn:E; [|reflexivity].
  apply get_In in E; eauto.
Qed.

Lemma updateUserBalance_NoDup names m id paid owed :
  NoDup (keys m) -> NoDup (keys (updateUserBalance names m id paid owed)).
Proof. unfold updateUserBalance; apply NoDup_keys_set. Qed.

Lemma processShares_balances names paidBy shares :
  forall st,
    let st' := fold_left (processShare names paidBy) shares st in
    (forall k, In k (keys (fst st'))
               <-> In k (keys (fst st)) \/ In k (map userId shares))
    /\ (keyed (fst st) -> keyed (fst st'))
    /\ (NoDup (keys (fst st)) -> NoDup (keys (fst st'))).
Proof.
  induction shares as [|s shares IH]; intros st; cbn [fold_left map].
  - simpl; intuition auto.
  - destruct (IH (processShare names paidBy st s)) as (Hkeys & Hkeyed & Hnd).
    assert (Hfst : fst (processShare names paidBy st s)
                   = updateUserBalance names (fst st) (userId s) None (amount s)).
    { unfold processShare; destruct (negb _); reflexivity. }
    rewrite Hfst in *; split; [|split].
    + intros k; rewrite Hkeys, updateUserBalance_keys; simpl; intuition auto.
    + intros H; apply Hkeyed, updateUserBalance_keyed, H.
    + intros H; apply Hnd, updateUserBalance_NoDup, H.
Qed.

Lemma with_amounts_userId shares amounts :
  map userId (with_amounts shares amounts) = map userId shares.
Proof.
  revert amounts; induction shares as [|s shares IH]; intros [|a amounts];
    simpl; auto; now rewrite IH.
Qed.

Lemma calculateShares_userId e shares :
  calculateShares e = Ok shares ->
  map userId shares = map userId (e_participants e).
Proof.
  unfold calculateShares, calculateEqualShares, calculatePercentageShares,
    calculateCustomShares, calculateWeightedShares.
  destruct (e_splitType e).
  - destruct (CurrencyUtils.distribute _ _); simpl; intros H; inversion H.
    apply with_amounts_userId.
  - destruct (CurrencyUtils.distributeByPercentages _ _); simpl; intros H;
      inversion H; apply with_amounts_userId.
  - destruct (negb _); intros H; inversion H.
    rewrite map_map; reflexivity.
  - destruct (CurrencyUtils.distributeByShares _ _); simpl; intros H;
      inversion H; apply with_amounts_userId.
Qed.

Lemma processExpense_balances names st e st' :
  processExpense names st e = Ok st' ->
  (forall k, In k (keys (fst st'))
             <-> In k (keys (fst st)) \/ e_paidBy e = k
                 \/ In k (map userId (e_participants e)))
  /\ (keyed (fst st) -> keyed (fst st'))
  /\ (NoDup (keys (fst st)) -> NoDup (keys (fst st'))).
Proof.
  unfold processExpense.
  destruct (calculateShares e) as [shares|msg] eqn:Es; simpl; [|discriminate].
  intros H; inversion H; subst st'; clear H.
  match goal with
  | |- context [fold_left _ shares ?st0] =>
      destruct (processShares_balances names (e_paidBy e) shares st0)
        as (Hkeys & Hkeyed & Hnd)
  end.
  cbn [fst] in *; split; [|split].
  - intros k; rewrite Hkeys, updateUserBalance_keys,
      (calculateShares_userId e shares Es).
    intuition auto.
  - intros H; apply Hkeyed, updateUserBalance_keyed, H.
  - intros H; apply Hnd, updateUserBalance_NoDup, H.
Qed.

Lemma processExpenses_balances names es :
  forall st st',
    processExpenses names st es = Ok st' ->
    (forall k, In k (keys (fst st'))
               <-> In k (keys (fst st)) \/ occurs_in es k)
    /\ (keyed (fst st) -> keyed (fst st'))
    /\ (NoDup (keys (fst st)) -> NoDup (keys (fst st'))).
Proof.
  induction es as [|e es IH]; intros st st'; cbn [processExpenses].
  - intros H; inversion H; subst; split; [|auto].
    intros k; split; [auto|]. intros [H'|(e & [] & _)]; exact H'.
  - destruct (processExpense names st e) as [st1|msg] eqn:E1; simpl;
      [|discriminate].
    intros H; destruct (IH _ _ H) as (Hkeys & Hkeyed & Hnd).
    destruct (processExpense_balances _ _ _ _ E1) as (Hkeys1 & Hkeyed1 & Hnd1).
    split; [|split; auto].
    intros k; rewrite Hkeys, Hkeys1; unfold occurs_in; split.
    + intros [[H'|H']|(e' & Hin & H')]; auto.
      * right; exists e; simpl; auto.
      * right; exists e'; simpl; auto.
    + intros [H'|(e' & [->|Hin] & H')]; auto.
      right; exists e'; auto.
Qed.

Lemma ensureAllUsersHaveBalances_balances names :
  forall m,
    let m' := ensureAllUsersHaveBalances names m in
    (forall k, In k (keys m') <-> In k (keys m) \/ In k (keys names))
    /\ (keyed m -> keyed m')
    /\ (NoDup (keys m) -> NoDup (keys m')).
Proof.
  unfold ensureAllUsersHaveBalances.
  induction names as [|[id nm] names IH]; intros m; cbn [fold_left].
  - simpl; intuition auto.
  - cbn [fst snd].
    match goal with
    | |- context [fold_left _ names ?m0] =>
        destruct (IH m0) as (Hkeys & Hkeyed & Hnd)
    end.
    unfold has in *; destruct (get id m) as [b|] eqn:E; cbn [negb] in *.
    + split; [|auto].
      intros k; rewrite Hkeys; simpl.
      assert (In id (keys m)) by (apply get_Some_keys; eauto).
      intuition (subst; auto).
    + split; [|split].
      * intros k; rewrite Hkeys, keys_set; simpl; intuition auto.
      * intros H; apply Hkeyed; intros k b Hin.
        apply In_set in Hin; destruct Hin as [[-> ->]|Hin]; eauto.
      * intros H; apply Hnd, NoDup_keys_set, H.
Qed.

Lemma initializeUserNames_keys es k :
  In k (keys (initializeUserNames es)) <-> occurs_in es k.
Proof.
  unfold initializeUserNames.
  assert (Hinner : forall ps names,
             In k (keys (fold_left
                           (fun names' participant =>
                              set (userId participant) (name participant) names')
                           ps names))
             <-> In k (keys names) \/ In k (map userId ps)).
  { induction ps as [|p ps IH]; intros names; cbn [fold_left map].
    - simpl; tauto.
    - rewrite IH, keys_set; simpl; intuition auto. }
  assert (Houter : forall names,
             In k (keys (fold_left
                           (fun names expense =>
                              fold_left
                                (fun names' participant =>
                                   set (userId participant) (name participant)
                                       names')
                                (e_participants expense)
                                (set (e_paidBy expense) (e_paidByName expense)
                                     names))
                           es names))
             <-> In k (keys names) \/ occurs_in es k).
  { induction es as [|e es IH]; intros names; cbn [fold_left].
    - split; [auto|]. intros [H|(e & [] & _)]; exact H.
    - rewrite IH, Hinner, keys_set; unfold occurs_in; split.
      + intros [[[->|H]|H]|(e' & Hin & H)]; auto.
        * right; exists e; simpl; auto.
        * right; exists e; simpl; auto.
        * right; exists e'; simpl; auto.
      + intros [H|(e' & [->|Hin] & [H|H])]; auto.
        * right; exists e'; auto.
        * right; exists e'; auto. }
  rewrite Houter; simpl; tauto.
Qed.

Lemma keyed_values (m : Map UserBalance) :
  keyed m -> map ub_userId (values m) = keys m.
Proof.
  unfold keyed, values, keys; induction m as [|[k b] m IH]; intros Hk;
    simpl; auto.
  rewrite (Hk k b) by (left; reflexivity).
  rewrite IH; auto; intros; apply Hk; right; assumption.
Qed.

Lemma constructor_balances es c :
  constructor es = Ok c ->
  expenses c = es
  /\ userNames c = initializeUserNames es
  /\ keyed (userBalances c)
  /\ NoDup (keys (userBalances c))
  /\ (forall k, In k (keys (userBalances c)) <-> occurs_in es k)
  /\ processExpenses (userNames c) ([], []) es
     = Ok (userBalances c, debtGraph c).
Proof.
  unfold constructor, calculateBalances.
  destruct (processExpenses _ _ es) as [[ub dg]|msg] eqn:E; simpl; [|discriminate].
  intros H; inversion H; subst c; clear H; cbn [expenses userNames userBalances debtGraph].
  destruct (processExpenses_balances _ _ _ _ E) as (Hkeys & Hkeyed & Hnd).
  cbn [fst] in *.
  destruct (ensureAllUsersHaveBalances_balances (initializeUserNames es) ub)
    as (Hkeys' & Hkeyed' & Hnd').
  assert (Hsame : ensureAllUsersHaveBalances (initializeUserNames es) ub = ub).
  { clear Hkeys' Hkeyed' Hnd'.
    assert (Hsub : forall k, In k (keys (initializeUserNames es)) -> In k (keys ub)).
    { intros k Hk; apply Hkeys; right; apply initializeUserNames_keys, Hk. }
    revert Hsub; generalize (initializeUserNames es) as names.
    unfold ensureAllUsersHaveBalances.
    induction names as [|[id nm] names IH]; intros Hsub; cbn [fold_left]; auto.
    cbn [fst snd]; unfold has.
    assert (Hin : In id (keys ub)) by (apply Hsub; left; reflexivity).
    apply get_Some_keys in Hin; destruct Hin as [b ->]; cbn [negb].
    apply IH; intros k Hk; apply Hsub; right; exact Hk. }
  rewrite Hsame in *.
  split; [reflexivity|]; split; [reflexivity|].
  split; [apply Hkeyed; intros k b []|].
  split; [apply Hnd; constructor|].
  split; [|exact E].
  intros k; rewrite Hkeys; simpl; tauto.
Qed.

(** C10, on the code.  The calculation receives the expense list and no
    roster: the returned balance list has exactly one entry for each
    identifier that occurs in some expense as the payer or as a sharing
    participant, and no entry for any other identifier. *)
Theorem balance_list_participants (es : list EnhancedExpense)
    (r : BalanceCalculationResult) :
  calculate es = Some (Ok r) ->
  NoDup (map ub_userId (r_userBalances r))
  /\ forall id : string,
       In id (map ub_userId (r_userBalances r)) <-> occurs_in es id.
Proof.
  unfold calculate.
  destruct (constructor es) as [c|msg] eqn:Ec; [|intros H; inversion H].
  destruct (constructor_balances es c Ec) as (_ & _ & Hkeyed & Hnd & Hkeys & _).
  unfold getCalculationResult.
  destruct (getOptimizedSettlements c) as [settlements|]; [|discriminate].
  destruct (CurrencyUtils.divide _ _) as [average|msg]; simpl; [|discriminate].
  intros H; inversion H; subst r; clear H; cbn [r_userBalances].
  unfold getUserBalances.
  assert (Hperm : Permutation
                    (map ub_userId (sort_desc ub_balance (values (userBalances c))))
                    (keys (userBalances c))).
  { rewrite <- (keyed_values _ Hkeyed).
    apply Permutation_map, sort_desc_perm. }
  split.
  - apply (Permutation_NoDup (Permutation_sym Hperm)), Hnd.
  - intros id; rewrite <- Hkeys; split; intros Hin.
    + apply (Permutation_in _ Hperm), Hin.
    + apply (Permutation_in _ (Permutation_sym Hperm)), Hin.
Qed.

Lemma balance_list_participants_witness :
  exists r,
    calculate dinner = Some (Ok r)
    /\ NoDup (map ub_userId (r_userBalances r))
    /\ forall id : string,
         In id (map ub_userId (r_userBalances r)) <-> occurs_in dinner id.
Proof.
  eexists; split; [vm_compute; reflexivity|].
  apply (balance_list_participants dinner); vm_compute; reflexivity.
Defined.

(** Roster completeness as the spec states it fails: dave is on the trip's
    roster but shares no
    expense; the calculation for the dinner of alice, bob and charlie
    succeeds and its balance list has no entry for dave. *)
Lemma roster_member_without_expense_absent :
  In "dave"%string ["alice"; "bob"; "charlie"; "dave"]%string
  /\ ~ occurs_in dinner "dave"
  /\ match calculate dinner with
     | Some (Ok r) =>
         map ub_userId (r_userBalances r) = ["alice"; "bob"; "charlie"]%string
         /\ ~ exists b, In b (r_userBalances r) /\ ub_userId b = "dave"%string
     | _ => False
     end.
Proof.
  split; [simpl; auto 6|].
  split.
  - intros (e & [<-|[]] & [H|H]); [discriminate H|].
    simpl in H; intuition discriminate.
  - vm_compute; split; [reflexivity|].
    intros (b & Hin & Hid).
    repeat (destruct Hin as [<-|Hin]; [discriminate Hid|]); exact Hin.
Qed.

(** ** Sums over settlements *)

Lemma sum_perm (l l' : list Q) : Permutation l l' -> sum l == sum l'.
Proof.
  induction 1 as [|x l l' _ IH|x y l|l l' l'' _ IH1 _ IH2].
  - reflexivity.
  - rewrite !sum_cons, IH; reflexivity.
  - rewrite !sum_cons; ring.
  - rewrite IH1; exact IH2.
Qed.

Lemma received_app p s1 s2 :
  received p (s1 ++ s2) == received p s1 + received p s2.
Proof. unfold received; rewrite map_app; apply sum_app. Qed.

Lemma paid_out_app p s1 s2 :
  paid_out p (s1 ++ s2) == paid_out p s1 + paid_out p s2.
Proof. unfold paid_out; rewrite map_app; apply sum_app. Qed.

Lemma received_perm p s1 s2 :
  Permutation s1 s2 -> received p s1 == received p s2.
Proof. intros H; apply sum_perm, Permutation_map, H. Qed.

Lemma paid_out_perm p s1 s2 :
  Permutation s1 s2 -> paid_out p s1 == paid_out p s2.
Proof. intros H; apply sum_perm, Permutation_map, H. Qed.

(** ** The settlement loop never overshoots *)

Lemma Math_min_le (x y : Q) : Math_min x y <= x /\ Math_min x y <= y.
Proof.
  unfold Math_min; destruct (Qle_bool x y) eqn:E.
  - apply Qle_bool_iff in E; split; [apply Qle_refl | exact E].
  - split; [|apply Qle_refl].
    destruct (Qlt_le_dec y x) as [H|H]; [apply Qlt_le_weak, H|].
    apply Qle_bool_iff in H; congruence.
Qed.

Lemma settleLoop_bounds (names : Map string) (fuel : nat) :
  forall (creditors debtors : list (string * Q)) (plan : list Settlement),
    settleLoop names fuel creditors debtors = Some plan ->
    open_amounts creditors -> open_amounts debtors ->
    NoDup (keys creditors) -> NoDup (keys debtors) ->
    (forall p, 0 <= received p plan /\ 0 <= paid_out p plan)
    /\ (forall p a, In (p, a) creditors -> received p plan <= a)
    /\ (forall p, ~ In p (keys creditors) -> received p plan == 0)
    /\ (forall p a, In (p, a) debtors -> paid_out p plan <= a)
    /\ (forall p, ~ In p (keys debtors) -> paid_out p plan == 0).
Proof.
  assert (Hdone : forall cs ds : list (string * Q),
             open_amounts cs -> open_amounts ds ->
             (forall p, 0 <= received p [] /\ 0 <= paid_out p [])
             /\ (forall p a, In (p, a) cs -> received p [] <= a)
             /\ (forall p, ~ In p (keys cs) -> received p [] == 0)
             /\ (forall p a, In (p, a) ds -> paid_out p [] <= a)
             /\ (forall p, ~ In p (keys ds) -> paid_out p [] == 0)).
  { intros cs ds Hcs Hds.
    assert (forall l p a, open_amounts l -> In (p, a) l -> 0 <= a).
    { intros l p a Hl Hin; unfold open_amounts in Hl.
      rewrite Forall_forall in Hl; apply (Hl (p, a) Hin). }
    unfold received, paid_out; cbn [map]; change (sum []) with 0.
    repeat split; try apply Qle_refl; try reflexivity; eauto. }
  induction fuel as [|fuel IH]; intros cs ds plan Hrun Hcs Hds Hndc Hndd.
  - destruct cs as [|[c ca] cs]; [|destruct ds as [|[d da] ds]];
      simpl in Hrun; inversion Hrun; subst; auto.
  - destruct cs as [|[c ca] cs];
      [simpl in Hrun; inversion Hrun; subst; auto|].
    destruct ds as [|[d da] ds];
      [simpl in Hrun; inversion Hrun; subst; auto|].
    cbn [settleLoop] in Hrun.
    set (settleAmount := Math_min ca da) in *.
    set (emitted := if Qltb (1 # 100) settleAmount then _ else _) in *.
    set (creditLeft := CurrencyUtils.subtract ca settleAmount) in *.
    set (debtLeft := CurrencyUtils.subtract da settleAmount) in *.
    set (cs' := if CurrencyUtils.isZero creditLeft then cs else _) in *.
    set (ds' := if CurrencyUtils.isZero debtLeft then ds else _) in *.
    destruct (settleLoop names fuel cs' ds') as [plan'|] eqn:Erec;
      [|discriminate Hrun].
    simpl in Hrun; inversion Hrun; subst plan; clear Hrun.
    (* the head entries *)
    inversion Hcs as [|? ? [Hca_c Hca_pos] Hcs0]; subst.
    inversion Hds as [|? ? [Hda_c Hda_pos] Hds0]; subst.
    inversion Hndc as [|? ? Hc_notin Hndc0]; subst.
    inversion Hndd as [|? ? Hd_notin Hndd0]; subst.
    cbn [snd] in *.
    destruct (Math_min_le ca da) as [Hle_c Hle_d]; fold settleAmount in Hle_c, Hle_d.
    assert (Hsettle_c : is_cents settleAmount)
      by (destruct (Math_min_cases ca da) as [E|E]; fold settleAmount in E;
          rewrite E; assumption).
    assert (Hsettle_pos : 0 <= settleAmount)
      by (destruct (Math_min_cases ca da) as [E|E]; fold settleAmount in E;
          rewrite E; assumption).
    assert (Ecl : creditLeft == ca - settleAmount)
      by (apply subtract_cents; assumption).
    assert (Edl : debtLeft == da - settleAmount)
      by (apply subtract_cents; assumption).
    assert (Hcs' : open_amounts cs').
    { unfold cs'; destruct (CurrencyUtils.isZero creditLeft); [exact Hcs0|].
      constructor; [|exact Hcs0]; cbn [snd]; split.
      - apply round_is_cents.
      - rewrite Ecl; lra. }
    assert (Hds' : open_amounts ds').
    { unfold ds'; destruct (CurrencyUtils.isZero debtLeft); [exact Hds0|].
      constructor; [|exact Hds0]; cbn [snd]; split.
      - apply round_is_cents.
      - rewrite Edl; lra. }
    assert (Hndc' : NoDup (keys cs'))
      by (unfold cs'; destruct (CurrencyUtils.isZero creditLeft);
          [exact Hndc0 | constructor; assumption]).
    assert (Hndd' : NoDup (keys ds'))
      by (unfold ds'; destruct (CurrencyUtils.isZero debtLeft);
          [exact Hndd0 | constructor; assumption]).
    destruct (IH cs' ds' plan' Erec Hcs' Hds' Hndc' Hndd')
      as (Hpos & Hrc & Hrn & Hpd & Hpn).
    (* what the emitted settlement contributes *)
    assert (Hemit_r : forall p,
               0 <= received p emitted
               /\ received p emitted
                  <= (if String.eqb c p then settleAmount else 0)).
    { intros p; unfold emitted, received.
      destruct (Qltb (1 # 100) settleAmount); cbn [map to s_amount].
      - destruct (String.eqb c p);
          rewrite sum_cons, sum_nil, ?(round_id _ Hsettle_c); lra.
      - rewrite sum_nil; destruct (String.eqb c p); lra. }
    assert (Hemit_p : forall p,
               0 <= paid_out p emitted
               /\ paid_out p emitted
                  <= (if String.eqb d p then settleAmount else 0)).
    { intros p; unfold emitted, paid_out.
      destruct (Qltb (1 # 100) settleAmount); cbn [map from s_amount].
      - destruct (String.eqb d p);
          rewrite sum_cons, sum_nil, ?(round_id _ Hsettle_c); lra.
      - rewrite sum_nil; destruct (String.eqb d p); lra. }
    (* the tails are kept *)
    assert (Hcs_tail : forall p a, In (p, a) cs -> In (p, a) cs')
      by (intros p a Hin; unfold cs';
          destruct (CurrencyUtils.isZero creditLeft); [|right]; exact Hin).
    assert (Hds_tail : forall p a, In (p, a) ds -> In (p, a) ds')
      by (intros p a Hin; unfold ds';
          destruct (CurrencyUtils.isZero debtLeft); [|right]; exact Hin).
    assert (Hcs_keys : forall p, In p (keys cs') -> p = c \/ In p (keys cs))
      by (intros p; unfold cs'; destruct (CurrencyUtils.isZero creditLeft);
          simpl; intuition auto).
    assert (Hds_keys : forall p, In p (keys ds') -> p = d \/ In p (keys ds))
      by (intros p; unfold ds'; destruct (CurrencyUtils.isZero debtLeft);
          simpl; intuition auto).
    (* the current creditor and debtor *)
    assert (Hc_head : received c plan' <= ca - settleAmount).
    { unfold cs' in Hrc, Hrn.
      destruct (CurrencyUtils.isZero creditLeft).
      - rewrite (Hrn c Hc_notin); lra.
      - rewrite <- Ecl; apply Hrc; left; reflexivity. }
    assert (Hd_head : paid_out d plan' <= da - settleAmount).
    { unfold ds' in Hpd, Hpn.
      destruct (CurrencyUtils.isZero debtLeft).
      - rewrite (Hpn d Hd_notin); lra.
      - rewrite <- Edl; apply Hpd; left; reflexivity. }
    split; [|split; [|split; [|split]]].
    + intros p; rewrite received_app, paid_out_app.
      destruct (Hpos p), (Hemit_r p), (Hemit_p p); split; lra.
    + intros p a [Hin|Hin]; rewrite received_app.
      * inversion Hin; subst p a.
        destruct (Hemit_r c) as [_ H]; rewrite String.eqb_refl in H; lra.
      * assert (Hne : c <> p)
          by (intros ->; apply Hc_notin, (in_map fst _ _ Hin)).
        destruct (Hemit_r p) as [H0 H]; apply String.eqb_neq in Hne.
        rewrite Hne in H; specialize (Hrc p a (Hcs_tail p a Hin)); lra.
    + intros p Hnotin; rewrite received_app.
      assert (Hne : c <> p) by (intros ->; apply Hnotin; left; reflexivity).
      destruct (Hemit_r p) as [H0 H]; apply String.eqb_neq in Hne.
      rewrite Hne in H; rewrite (Hrn p); [lra|].
      intros Hin; apply Hcs_keys in Hin; destruct Hin as [->|Hin];
        [apply String.eqb_neq in Hne; congruence|].
      apply Hnotin; right; exact Hin.
    + intros p a [Hin|Hin]; rewrite paid_out_app.
      * inversion Hin; subst p a.
        destruct (Hemit_p d) as [_ H]; rewrite String.eqb_refl in H; lra.
      * assert (Hne : d <> p)
          by (intros ->; apply Hd_notin, (in_map fst _ _ Hin)).
        destruct (Hemit_p p) as [H0 H]; apply String.eqb_neq in Hne.
        rewrite Hne in H; specialize (Hpd p a (Hds_tail p a Hin)); lra.
    + intros p Hnotin; rewrite paid_out_app.
      assert (Hne : d <> p) by (intros ->; apply Hnotin; left; reflexivity).
      destruct (Hemit_p p) as [H0 H]; apply String.eqb_neq in Hne.
      rewrite Hne in H; rewrite (Hpn p); [lra|].
      intros Hin; apply Hds_keys in Hin; destruct Hin as [->|Hin];
        [apply String.eqb_neq in Hne; congruence|].
      apply Hnotin; right; exact Hin.
Qed.

(** ** Net balances folded from the debt graph *)

Lemma fold_left_invariant {A B : Type} (P : A -> Prop) (f : A -> B -> A)
    (l : list B) (a : A) :
  P a -> (forall a' b, P a' -> P (f a' b)) -> P (fold_left f l a).
Proof.
  intros Ha Hstep; revert a Ha; induction l as [|b l IH]; intros a Ha; simpl;
    auto.
Qed.

Lemma cents_values_set k v (m : Map Q) :
  is_cents v -> cents_values m -> cents_values (set k v m).
Proof.
  intros Hv Hm k' v' Hin; apply In_set in Hin.
  destruct Hin as [[_ ->]|Hin]; [exact Hv | eapply Hm, Hin].
Qed.

Lemma computeNetBalances_wf names dg :
  NoDup (keys (computeNetBalances names dg))
  /\ cents_values (computeNetBalances names dg).
Proof.
  unfold computeNetBalances.
  apply (fold_left_invariant
           (fun nb : Map Q => NoDup (keys nb) /\ cents_values nb)).
  - apply (fold_left_invariant
             (fun nb : Map Q => NoDup (keys nb) /\ cents_values nb)).
    + split; [constructor | intros k v []].
    + intros nb entry [Hnd Hc]; split;
        [apply NoDup_keys_set, Hnd | apply cents_values_set; auto using is_cents_0].
  - intros nb entry Hnb.
    apply (fold_left_invariant
             (fun nb : Map Q => NoDup (keys nb) /\ cents_values nb)); [exact Hnb|].
    intros nb' edge [Hnd Hc]; split.
    + apply NoDup_keys_set, NoDup_keys_set, Hnd.
    + apply cents_values_set; [apply round_is_cents|].
      apply cents_values_set; [apply round_is_cents | exact Hc].
Qed.

Lemma NoDup_keys_functional {V : Type} (m : Map V) k v v' :
  NoDup (keys m) -> In (k, v) m -> In (k, v') m -> v = v'.
Proof.
  induction m as [|[k0 v0] m IH]; simpl; [tauto|].
  intros Hnd; inversion Hnd as [|? ? Hnotin Hnd']; subst.
  intros [H|H] [H'|H'].
  - congruence.
  - inversion H; subst; exfalso; apply Hnotin, (in_map fst _ _ H').
  - inversion H'; subst; exfalso; apply Hnotin, (in_map fst _ _ H).
  - eauto.
Qed.

Lemma NoDup_keys_filter {V : Type} (f : string * V -> bool) (m : Map V) :
  NoDup (keys m) -> NoDup (keys (filter f m)).
Proof.
  induction m as [|[k v] m IH]; simpl; auto.
  intros Hnd; inversion Hnd as [|? ? Hnotin Hnd']; subst.
  destruct (f (k, v)); simpl; auto.
  constructor; auto.
  intros Hin; apply Hnotin; unfold keys in *.
  apply in_map_iff in Hin; destruct Hin as ([k' v'] & <- & Hin).
  apply filter_In in Hin; apply (in_map fst _ _ (proj1 Hin)).
Qed.

Lemma creditorsOf_In nb p a :
  In (p, a) (creditorsOf nb) <-> In (p, a) nb /\ 1 # 100 < a.
Proof.
  unfold creditorsOf; rewrite filter_In; cbn [snd].
  rewrite Qltb_true; reflexivity.
Qed.

Lemma debtorsOf_In nb p a :
  In (p, a) (debtorsOf nb)
  <-> exists b, In (p, b) nb /\ b < - (1 # 100) /\ a = Math_abs b.
Proof.
  unfold debtorsOf; rewrite in_map_iff; split.
  - intros ([p' b] & E & Hin); inversion E; subst.
    apply filter_In in Hin; destruct Hin as [Hin Hcond]; cbn [fst snd] in *.
    apply andb_true_iff in Hcond; destruct Hcond as [_ Hlt].
    apply Qltb_true in Hlt; eauto.
  - intros (b & Hin & Hlt & ->); exists (p, b); split; [reflexivity|].
    apply filter_In; split; [exact Hin|]; cbn [snd].
    apply andb_true_iff; split; [|apply Qltb_true, Hlt].
    apply negb_true_iff, Qltb_false; lra.
Qed.

Lemma debtorsOf_keys nb :
  keys (debtorsOf nb)
  = keys (filter (fun entry => negb (Qltb (1 # 100) (snd entry))
                               && Qltb (snd entry) (- (1 # 100))) nb).
Proof.
  unfold debtorsOf, keys; rewrite map_map; reflexivity.
Qed.

Lemma open_amounts_perm l l' :
  Permutation l l' -> open_amounts l -> open_amounts l'.
Proof.
  unfold open_amounts; intros Hp Hl; rewrite Forall_forall in *.
  intros x Hx; apply Hl, (Permutation_in _ (Permutation_sym Hp)), Hx.
Qed.

(** ** What the plan settles *)

Lemma cents_positive (x : Q) : is_cents x -> 0 < x -> 1 # 100 <= x.
Proof.
  intros [z Hz] Hpos; rewrite Hz in *.
  unfold cents, Qlt, Qle in *; simpl in *; lia.
Qed.

Lemma isZero_cents (x : Q) :
  is_cents x -> 0 <= x ->
  if CurrencyUtils.isZero x then x == 0 else 1 # 100 <= x.
Proof.
  intros Hc Hpos; unfold CurrencyUtils.isZero, Math_abs.
  destruct (Qltb (Qabs x) (1 # 100)) eqn:E.
  - apply Qltb_true in E; rewrite Qabs_pos in E by exact Hpos.
    destruct (Qlt_le_dec 0 x) as [H|H]; [|lra].
    pose proof (cents_positive x Hc H); lra.
  - apply Qltb_false in E; rewrite Qabs_pos in E by exact Hpos; exact E.
Qed.

Lemma headslack_bounds (other : list (string * Q)) :
  1 # 100 <= headslack other <= 2 # 100.
Proof.
  unfold headslack; destruct other as [|[d b] t]; [lra|].
  destruct (Qle_bool b (1 # 100)); lra.
Qed.

Lemma headslack_fresh (t : list (string * Q)) :
  Forall (fun entry => 2 # 100 <= snd entry) t -> headslack t = 1 # 100.
Proof.
  intros H; destruct t as [|[d b] t]; [reflexivity|].
  inversion H as [|? ? Hb _]; subst; cbn [snd headslack] in *.
  destruct (Qle_bool b (1 # 100)) eqn:E; [|reflexivity].
  apply Qle_bool_iff in E; lra.
Qed.

Lemma well_formed_tail (h : string) (x : Q) (t : list (string * Q)) :
  well_formed ((h, x) :: t) ->
  well_formed t /\ Forall (fun entry => 2 # 100 <= snd entry) t.
Proof.
  intros [Hc [_ Hfresh]]; inversion Hc as [|? ? _ Hct]; subst.
  split; [|exact Hfresh]; split; [exact Hct|].
  destruct t as [|[h' x'] t']; [exact I|].
  inversion Hfresh as [|? ? Hx' Ht']; subst; cbn [snd] in *.
  split; [lra | exact Ht'].
Qed.

Lemma well_formed_open (l : list (string * Q)) :
  well_formed l -> open_amounts l.
Proof.
  intros [Hc Hsize]; unfold open_amounts.
  destruct l as [|[h x] t]; [constructor|].
  destruct Hsize as [Hx Hfresh].
  inversion Hc as [|? ? Hcx Hct]; subst; cbn [snd] in *.
  constructor; [cbn [snd]; split; [exact Hcx | lra]|].
  rewrite Forall_forall in *; intros entry Hin.
  split; [apply Hct, Hin | specialize (Hfresh entry Hin); lra].
Qed.

Lemma side_settled_all (got : string -> Q) (side other : list (string * Q)) :
  side_settled got side other ->
  forall p a, In (p, a) side -> a - got p <= 2 # 100.
Proof.
  destruct side as [|[h x] t]; intros H p a Hin; [destruct Hin|].
  destruct H as [Hh Ht]; destruct Hin as [E|Hin]; [|apply Ht, Hin].
  injection E as <- <-.
  pose proof (headslack_bounds other); lra.
Qed.

(** The current entry is finished at this turn. *)
Lemma lift_finished (got got' : string -> Q) h x t other other' :
  (forall p a, In (p, a) t -> got p == got' p) ->
  x - got h <= 1 # 100 ->
  side_settled got' t other' ->
  side_settled got ((h, x) :: t) other.
Proof.
  intros Htail Hhead IH; split.
  - pose proof (headslack_bounds other); lra.
  - intros p a Hin; rewrite (Htail p a Hin).
    apply (side_settled_all got' t other' IH p a Hin).
Qed.

(** The current entry goes on with [x'] against a fresh entry of the
    other array. *)
Lemma lift_continues (got got' : string -> Q) h x x' t other other' :
  (forall p a, In (p, a) t -> got p == got' p) ->
  headslack other' = 1 # 100 ->
  x - got h <= (x' - got' h) + (headslack other - (1 # 100)) ->
  side_settled got' ((h, x') :: t) other' ->
  side_settled got ((h, x) :: t) other.
Proof.
  intros Htail Hfresh Hhead [IHh IHt]; rewrite Hfresh in IHh; split.
  - lra.
  - intros p a Hin; rewrite (Htail p a Hin); apply IHt, Hin.
Qed.

(** When the loop ends, one of the two arrays is used up, and each of its
    entries was settled but for two cents at most. *)
Lemma settleLoop_settles (names : Map string) (fuel : nat) :
  forall (creditors debtors : list (string * Q)) (plan : list Settlement),
    settleLoop names fuel creditors debtors = Some plan ->
    well_formed creditors -> well_formed debtors ->
    NoDup (keys creditors) -> NoDup (keys debtors) ->
    side_settled (fun p => received p plan) creditors debtors
    \/ side_settled (fun p => paid_out p plan) debtors creditors.
Proof.
  induction fuel as [|fuel IH]; intros cs ds plan Hrun Hcs Hds Hndc Hndd.
  - destruct cs as [|[c ca] cs]; [left; exact I|].
    destruct ds as [|[d da] ds]; [right; exact I | discriminate Hrun].
  - destruct cs as [|[c ca] cs]; [left; exact I|].
    destruct ds as [|[d da] ds]; [right; exact I|].
    cbn [settleLoop] in Hrun.
    set (settleAmount := Math_min ca da) in *.
    set (emitted := if Qltb (1 # 100) settleAmount then _ else _) in *.
    set (creditLeft := CurrencyUtils.subtract ca settleAmount) in *.
    set (debtLeft := CurrencyUtils.subtract da settleAmount) in *.
    set (cs' := if CurrencyUtils.isZero creditLeft then cs else _) in *.
    set (ds' := if CurrencyUtils.isZero debtLeft then ds else _) in *.
    destruct (settleLoop names fuel cs' ds') as [plan'|] eqn:Erec;
      [|discriminate Hrun].
    simpl in Hrun; injection Hrun as <-.
    destruct (well_formed_tail _ _ _ Hcs) as [Hcs0 Hcfresh].
    destruct (well_formed_tail _ _ _ Hds) as [Hds0 Hdfresh].
    destruct Hcs as [Hcc [Hca _]]; destruct Hds as [Hdc [Hda _]].
    inversion Hcc as [|? ? Hca_c Hcc0]; subst.
    inversion Hdc as [|? ? Hda_c Hdc0]; subst.
    inversion Hndc as [|? ? Hc_notin Hndc0]; subst.
    inversion Hndd as [|? ? Hd_notin Hndd0]; subst.
    cbn [snd] in *.
    destruct (Math_min_le ca da) as [Hle_c Hle_d];
      fold settleAmount in Hle_c, Hle_d.
    assert (Hmin : (settleAmount == ca /\ ca <= da)
                   \/ (settleAmount == da /\ da < ca)).
    { unfold settleAmount, Math_min.
      destruct (Qle_bool ca da) eqn:E.
      - left; split; [reflexivity | apply Qle_bool_iff, E].
      - right; split; [reflexivity|].
        apply Qnot_le_lt; intros H; apply Qle_bool_iff in H; congruence. }
    assert (Hsettle_c : is_cents settleAmount)
      by (destruct (Math_min_cases ca da) as [E|E]; fold settleAmount in E;
          rewrite E; assumption).
    assert (Ecl : creditLeft == ca - settleAmount)
      by (apply subtract_cents; assumption).
    assert (Edl : debtLeft == da - settleAmount)
      by (apply subtract_cents; assumption).
    assert (Hzc : if CurrencyUtils.isZero creditLeft
                  then creditLeft == 0 else 1 # 100 <= creditLeft)
      by (apply isZero_cents; [apply round_is_cents | lra]).
    assert (Hzd : if CurrencyUtils.isZero debtLeft
                  then debtLeft == 0 else 1 # 100 <= debtLeft)
      by (apply isZero_cents; [apply round_is_cents | lra]).
    assert (Hcs' : well_formed cs').
    { unfold cs'; destruct (CurrencyUtils.isZero creditLeft); [exact Hcs0|].
      split; [constructor; [apply round_is_cents | exact Hcc0]|].
      split; [exact Hzc | exact Hcfresh]. }
    assert (Hds' : well_formed ds').
    { unfold ds'; destruct (CurrencyUtils.isZero debtLeft); [exact Hds0|].
      split; [constructor; [apply round_is_cents | exact Hdc0]|].
      split; [exact Hzd | exact Hdfresh]. }
    assert (Hndc' : NoDup (keys cs'))
      by (unfold cs'; destruct (CurrencyUtils.isZero creditLeft);
          [exact Hndc0 | constructor; assumption]).
    assert (Hndd' : NoDup (keys ds'))
      by (unfold ds'; destruct (CurrencyUtils.isZero debtLeft);
          [exact Hndd0 | constructor; assumption]).
    destruct (settleLoop_bounds _ _ _ _ _ Erec (well_formed_open _ Hcs')
                (well_formed_open _ Hds') Hndc' Hndd')
      as (_ & _ & Hrn & _ & Hpn).
    specialize (IH cs' ds' plan' Erec Hcs' Hds' Hndc' Hndd').
    (* what the emitted settlement contributes *)
    assert (Hemit_r : forall p,
               received p emitted
               == if String.eqb c p
                  then (if Qltb (1 # 100) settleAmount then settleAmount else 0)
                  else 0).
    { intros p; unfold emitted, received.
      destruct (Qltb (1 # 100) settleAmount); cbn [map to s_amount].
      - destruct (String.eqb c p);
          rewrite sum_cons, sum_nil, ?(round_id _ Hsettle_c); ring.
      - rewrite sum_nil; destruct (String.eqb c p); reflexivity. }
    assert (Hemit_p : forall p,
               paid_out p emitted
               == if String.eqb d p
                  then (if Qltb (1 # 100) settleAmount then settleAmount else 0)
                  else 0).
    { intros p; unfold emitted, paid_out.
      destruct (Qltb (1 # 100) settleAmount); cbn [map from s_amount].
      - destruct (String.eqb d p);
          rewrite sum_cons, sum_nil, ?(round_id _ Hsettle_c); ring.
      - rewrite sum_nil; destruct (String.eqb d p); reflexivity. }
    assert (Hr_tail : forall p a, In (p, a) cs ->
               received p (emitted ++ plan') == received p plan').
    { intros p a Hin; rewrite received_app, Hemit_r.
      assert (Hne : c <> p)
        by (intros ->; apply Hc_notin, (in_map fst _ _ Hin)).
      apply String.eqb_neq in Hne; rewrite Hne; ring. }
    assert (Hp_tail : forall p a, In (p, a) ds ->
               paid_out p (emitted ++ plan') == paid_out p plan').
    { intros p a Hin; rewrite paid_out_app, Hemit_p.
      assert (Hne : d <> p)
        by (intros ->; apply Hd_notin, (in_map fst _ _ Hin)).
      apply String.eqb_neq in Hne; rewrite Hne; ring. }
    assert (Hr_head : received c (emitted ++ plan')
                      == (if Qltb (1 # 100) settleAmount then settleAmount else 0)
                         + received c plan')
      by (rewrite received_app, Hemit_r, String.eqb_refl; reflexivity).
    assert (Hp_head : paid_out d (emitted ++ plan')
                      == (if Qltb (1 # 100) settleAmount then settleAmount else 0)
                         + paid_out d plan')
      by (rewrite paid_out_app, Hemit_p, String.eqb_refl; reflexivity).
    assert (Hdrop : settleAmount
                    - (if Qltb (1 # 100) settleAmount then settleAmount else 0)
                    <= 1 # 100
                    /\ 0 <= settleAmount
                            - (if Qltb (1 # 100) settleAmount
                               then settleAmount else 0)).
    { destruct (Qltb (1 # 100) settleAmount) eqn:E.
      - split; lra.
      - apply Qltb_false in E.
        destruct Hmin as [[E' _]|[E' _]]; split; lra. }
    assert (Hslack_c : settleAmount == da ->
               settleAmount
               - (if Qltb (1 # 100) settleAmount then settleAmount else 0)
               <= headslack ((d, da) :: ds) - (1 # 100)).
    { intros E; cbn [headslack].
      destruct (Qltb (1 # 100) settleAmount) eqn:Ep.
      - destruct (Qle_bool da (1 # 100)); lra.
      - apply Qltb_false in Ep.
        assert (Hle : Qle_bool da (1 # 100) = true)
          by (apply Qle_bool_iff; lra).
        rewrite Hle; lra. }
    assert (Hslack_d : settleAmount == ca ->
               settleAmount
               - (if Qltb (1 # 100) settleAmount then settleAmount else 0)
               <= headslack ((c, ca) :: cs) - (1 # 100)).
    { intros E; cbn [headslack].
      destruct (Qltb (1 # 100) settleAmount) eqn:Ep.
      - destruct (Qle_bool ca (1 # 100)); lra.
      - apply Qltb_false in Ep.
        assert (Hle : Qle_bool ca (1 # 100) = true)
          by (apply Qle_bool_iff; lra).
        rewrite Hle; lra. }
    destruct Hdrop as [Hdrop Hdrop0].
    (* the two sides, each finished or going on *)
    assert (Hleft : side_settled (fun p => received p plan') cs' ds' ->
                    side_settled (fun p => received p (emitted ++ plan'))
                                 ((c, ca) :: cs) ((d, da) :: ds)).
    { unfold cs', ds'; destruct (CurrencyUtils.isZero creditLeft) eqn:Ez.
      - intros H;
          apply (lift_finished _ (fun p => received p plan') _ _ _ _
                   (if CurrencyUtils.isZero debtLeft then ds
                    else (d, debtLeft) :: ds));
          [exact Hr_tail | | exact H].
        rewrite Hr_head, (Hrn c) by exact Hc_notin; lra.
      - destruct (CurrencyUtils.isZero debtLeft) eqn:Ezd;
          [|exfalso; destruct Hmin as [[E _]|[E _]]; lra].
        intros H.
        apply (lift_continues _ (fun p => received p plan') c ca creditLeft
                 cs _ ds); [exact Hr_tail | apply headslack_fresh, Hdfresh | | exact H].
        rewrite Hr_head.
        assert (E : settleAmount == da) by lra.
        specialize (Hslack_c E); lra. }
    assert (Hright : side_settled (fun p => paid_out p plan') ds' cs' ->
                     side_settled (fun p => paid_out p (emitted ++ plan'))
                                  ((d, da) :: ds) ((c, ca) :: cs)).
    { unfold cs', ds'; destruct (CurrencyUtils.isZero debtLeft) eqn:Ez.
      - intros H;
          apply (lift_finished _ (fun p => paid_out p plan') _ _ _ _
                   (if CurrencyUtils.isZero creditLeft then cs
                    else (c, creditLeft) :: cs));
          [exact Hp_tail | | exact H].
        rewrite Hp_head, (Hpn d) by exact Hd_notin; lra.
      - destruct (CurrencyUtils.isZero creditLeft) eqn:Ezc;
          [|exfalso; destruct Hmin as [[E _]|[E _]]; lra].
        intros H.
        apply (lift_continues _ (fun p => paid_out p plan') d da debtLeft
                 ds _ cs); [exact Hp_tail | apply headslack_fresh, Hcfresh | | exact H].
        rewrite Hp_head.
        assert (E : settleAmount == ca) by lra.
        specialize (Hslack_d E); lra. }
    destruct IH as [H|H]; [left; apply Hleft, H | right; apply Hright, H].
Qed.

Lemma fresh_well_formed (l : list (string * Q)) :
  Forall (fun entry => is_cents (snd entry) /\ 1 # 100 < snd entry) l ->
  well_formed l.
Proof.
  intros H.
  assert (Hfresh : Forall (fun entry => 2 # 100 <= snd entry) l).
  { rewrite Forall_forall in *; intros entry Hin.
    destruct (H entry Hin) as [[z Hz] Hlt]; rewrite Hz in *.
    unfold cents, Qlt, Qle in *; simpl in *; lia. }
  split.
  - rewrite Forall_forall in *; intros entry Hin; apply (H entry Hin).
  - destruct l as [|[h x] t]; [exact I|].
    inversion Hfresh as [|? ? Hx Ht]; subst; cbn [snd] in *.
    split; [lra | exact Ht].
Qed.

(** C3, on the code.  For every accepted expense list of the ordinary
    range the optimizer returns a plan.  Carrying out every settlement of
    the plan on the net balances it folded from the debt graph (the amount
    credited to the paying debtor, debited from the receiving creditor)
    never overshoots: every participant's adjusted balance lies between
    zero and the participant's net balance, and a participant whose net
    balance is within 0.01 of zero takes part in no settlement.  And the
    plan settles one side: every creditor ends within 0.02 of zero, or
    every debtor does. *)
Theorem settlements_never_overshoot (es : list EnhancedExpense)
    (c : Calculator) :
  constructor es = Ok c ->
  ordinary es ->
  let netBalances := computeNetBalances (userNames c) (debtGraph c) in
  exists plan : list Settlement,
    getOptimizedSettlements c = Some plan
    /\ (forall (id : string) (balance : Q),
          In (id, balance) netBalances ->
          ((0 <= adjusted balance id plan <= balance)
           \/ (balance <= adjusted balance id plan <= 0))
          /\ (Math_abs balance <= 0.01 ->
              received id plan == 0 /\ paid_out id plan == 0))
    /\ ((forall (id : string) (balance : Q),
           In (id, balance) netBalances -> 0.01 < balance ->
           adjusted balance id plan <= 0.02)
        \/ (forall (id : string) (balance : Q),
              In (id, balance) netBalances -> balance < - 0.01 ->
              - 0.02 <= adjusted balance id plan)).
Proof.
  intros _ _ nb.
  destruct (computeNetBalances_wf (userNames c) (debtGraph c)) as [Hnd Hcents].
  fold nb in Hnd, Hcents.
  unfold getOptimizedSettlements, optimizeSettlements; fold nb.
  set (cs := sort_desc snd (creditorsOf nb)).
  set (ds := sort_desc snd (debtorsOf nb)).
  assert (Pc : Permutation cs (creditorsOf nb)) by apply sort_desc_perm.
  assert (Pd : Permutation ds (debtorsOf nb)) by apply sort_desc_perm.
  destruct (settleLoop_terminates (userNames c) (length cs + length ds) cs ds)
    as (plan & Hplan & _ & _); [lia|].
  assert (Hwc : well_formed cs).
  { apply fresh_well_formed, Forall_forall; intros [p a] Hin.
    apply (Permutation_in _ Pc), creditorsOf_In in Hin.
    destruct Hin as [Hin Hlt]; cbn [snd]; split; [eapply Hcents, Hin | exact Hlt]. }
  assert (Hwd : well_formed ds).
  { apply fresh_well_formed, Forall_forall; intros [p a] Hin.
    apply (Permutation_in _ Pd), debtorsOf_In in Hin.
    destruct Hin as (b & Hin & Hlt & ->); cbn [snd]; unfold Math_abs.
    split; [|rewrite Qabs_neg by lra; lra].
    destruct (Hcents p b Hin) as [z Hz]; exists (- z)%Z.
    rewrite Qabs_neg by lra.
    rewrite Hz; unfold cents, Qopp, Qeq; simpl; lia. }
  pose proof (well_formed_open _ Hwc) as Hcs.
  pose proof (well_formed_open _ Hwd) as Hds.
  assert (Hndc : NoDup (keys cs)).
  { apply (Permutation_NoDup (Permutation_map fst (Permutation_sym Pc))).
    apply NoDup_keys_filter, Hnd. }
  assert (Hndd : NoDup (keys ds)).
  { apply (Permutation_NoDup (Permutation_map fst (Permutation_sym Pd))).
    change (NoDup (keys (debtorsOf nb))).
    rewrite debtorsOf_keys; apply NoDup_keys_filter, Hnd. }
  destruct (settleLoop_bounds _ _ _ _ _ Hplan Hcs Hds Hndc Hndd)
    as (Hpos & Hrc & Hrn & Hpd & Hpn).
  pose proof (settleLoop_settles _ _ _ _ _ Hplan Hwc Hwd Hndc Hndd) as Hside.
  exists (sort_desc s_amount plan); rewrite Hplan; split; [reflexivity|].
  assert (Hnot_creditor : forall id b,
             In (id, b) nb -> ~ 1 # 100 < b -> ~ In id (keys cs)).
  { intros id b Hin Hb Hk.
    apply (Permutation_in _ (Permutation_map fst Pc)) in Hk.
    apply in_map_iff in Hk; destruct Hk as ([p a] & E & Hk); cbn [fst] in E.
    subst p; apply creditorsOf_In in Hk; destruct Hk as [Hk Hlt].
    rewrite (NoDup_keys_functional nb id b a Hnd Hin Hk) in Hb; auto. }
  assert (Hnot_debtor : forall id b,
             In (id, b) nb -> ~ b < - (1 # 100) -> ~ In id (keys ds)).
  { intros id b Hin Hb Hk.
    apply (Permutation_in _ (Permutation_map fst Pd)) in Hk.
    apply in_map_iff in Hk; destruct Hk as ([p a] & E & Hk); cbn [fst] in E.
    subst p; apply debtorsOf_In in Hk; destruct Hk as (b' & Hk & Hlt & _).
    rewrite (NoDup_keys_functional nb id b b' Hnd Hin Hk) in Hb; auto. }
  assert (Hcreditor : forall id b,
             In (id, b) nb -> 1 # 100 < b -> In (id, b) cs)
    by (intros id b Hin Hb;
        apply (Permutation_in _ (Permutation_sym Pc)), creditorsOf_In; auto).
  assert (Hdebtor : forall id b,
             In (id, b) nb -> b < - (1 # 100) -> In (id, Math_abs b) ds).
  { intros id b Hin Hb.
    apply (Permutation_in _ (Permutation_sym Pd)), debtorsOf_In.
    exists b; auto. }
  split.
  - intros id b Hin; unfold adjusted.
    rewrite (received_perm id _ _ (sort_desc_perm s_amount plan)).
    rewrite (paid_out_perm id _ _ (sort_desc_perm s_amount plan)).
    destruct (Hpos id) as [Hr0 Hp0].
    split.
    + destruct (Qlt_le_dec (1 # 100) b) as [Hcred|Hncred].
      * (* a creditor *)
        specialize (Hrc id b (Hcreditor id b Hin Hcred)).
        rewrite (Hpn id) by (apply (Hnot_debtor id b Hin); lra).
        left; split; lra.
      * destruct (Qlt_le_dec b (- (1 # 100))) as [Hdebt|Hndebt].
        -- (* a debtor *)
           specialize (Hpd id _ (Hdebtor id b Hin Hdebt)); unfold Math_abs in Hpd.
           rewrite Qabs_neg in Hpd by lra.
           rewrite (Hrn id) by (apply (Hnot_creditor id b Hin); lra).
           right; split; lra.
        -- (* within the tolerance band: untouched *)
           rewrite (Hrn id) by (apply (Hnot_creditor id b Hin); lra).
           rewrite (Hpn id) by (apply (Hnot_debtor id b Hin); lra).
           destruct (Qlt_le_dec b 0); [right | left]; split; lra.
    + unfold Math_abs; intros Hband.
      apply Qabs_Qle_condition in Hband; destruct Hband as [Hlo Hhi].
      split; [apply Hrn, (Hnot_creditor id b Hin)
             | apply Hpn, (Hnot_debtor id b Hin)]; lra.
  - destruct Hside as [Hside|Hside]; [left | right]; intros id b Hin Hb;
      unfold adjusted;
      rewrite (received_perm id _ _ (sort_desc_perm s_amount plan));
      rewrite (paid_out_perm id _ _ (sort_desc_perm s_amount plan)).
    + pose proof (side_settled_all _ _ _ Hside id b (Hcreditor id b Hin Hb)) as H.
      cbv beta in H.
      rewrite (Hpn id) by (apply (Hnot_debtor id b Hin); lra); lra.
    + pose proof (side_settled_all _ _ _ Hside id _ (Hdebtor id b Hin Hb)) as H.
      cbv beta in H; unfold Math_abs in H; rewrite Qabs_neg in H by lra.
      rewrite (Hrn id) by (apply (Hnot_creditor id b Hin); lra); lra.
Qed.

Lemma settlements_never_overshoot_witness :
  exists (c : Calculator) (plan : list Settlement),
    constructor dinner = Ok c
    /\ getOptimizedSettlements c = Some plan
    /\ ((forall (id : string) (balance : Q),
           In (id, balance) (computeNetBalances (userNames c) (debtGraph c)) ->
           0.01 < balance -> adjusted balance id plan <= 0.02)
        \/ (forall (id : string) (balance : Q),
              In (id, balance) (computeNetBalances (userNames c) (debtGraph c)) ->
              balance < - 0.01 -> - 0.02 <= adjusted balance id plan)).
Proof.
  destruct (constructor dinner) as [c|msg] eqn:E;
    [|vm_compute in E; discriminate E].
  destruct (settlements_never_overshoot dinner c E) as (plan & Hplan & _ & Hside);
    [in_ordinary_range|].
  exists c, plan; split; [reflexivity|]; split; assumption.
Defined.

(** Settlement correctness as the spec states it fails: alice pays four
    cents, split equally among four.
    Her net balance is 0.03 (directly accumulated and folded from the debt
    graph alike), the three others are at -0.01 and inside the tolerance
    band, so the plan is empty and alice's balance stays at 0.03, more
    than 0.01 away from zero. *)
Lemma settlement_leaves_three_cents :
  match constructor four_cents_four_ways with
  | Ok c =>
      getOptimizedSettlements c = Some []
      /\ get "alice" (computeNetBalances (userNames c) (debtGraph c))
         = Some 0.03
      /\ option_map ub_balance (get "alice" (userBalances c)) = Some 0.03
      /\ adjusted 0.03 "alice" [] == 0.03
      /\ ~ Math_abs (adjusted 0.03 "alice" []) <= 0.01
  | Throw _ => False
  end.
Proof.
  vm_compute; repeat split; try reflexivity.
  intros H; apply H; reflexivity.
Qed.

(** ** The two derivations of a net balance *)

Lemma sumMap_nil {V : Type} (g : string -> V -> Q) : sumMap g [] == 0.
Proof. reflexivity. Qed.

Lemma sumMap_cons {V : Type} (g : string -> V -> Q) k v (m : Map V) :
  sumMap g ((k, v) :: m) == g k v + sumMap g m.
Proof. unfold sumMap; cbn [map fst snd]; apply sum_cons. Qed.

Lemma sumMap_set {V : Type} (g : string -> V -> Q) k v (m : Map V) :
  sumMap g (set k v m)
  == sumMap g m - match get k m with Some v0 => g k v0 | None => 0 end + g k v.
Proof.
  induction m as [|[k0 v0] m IH]; cbn [set get].
  - rewrite sumMap_cons, sumMap_nil; ring.
  - destruct (String.eqb k k0) eqn:E.
    + apply String.eqb_eq in E; subst k0; rewrite !sumMap_cons; ring.
    + rewrite !sumMap_cons, IH; ring.
Qed.

Lemma edgeTerm_plus id d c a a' x :
  x == a + a' -> edgeTerm id d c x == edgeTerm id d c a + edgeTerm id d c a'.
Proof.
  intros E; unfold edgeTerm.
  destruct (String.eqb c id), (String.eqb d id); rewrite ?E; ring.
Qed.

Lemma edgeTerm_0 id d c : edgeTerm id d c 0 == 0.
Proof. unfold edgeTerm; destruct (String.eqb c id), (String.eqb d id); ring. Qed.

Lemma updateDebtGraph_ok dg d c a :
  dg_ok dg -> is_cents a -> c <> d -> dg_ok (updateDebtGraph dg d c a).
Proof.
  intros Hdg Ha Hne d' m' c' a' Hin Hin'; unfold updateDebtGraph in Hin.
  apply In_set in Hin; destruct Hin as [[-> ->]|Hin]; [|eapply Hdg; eauto].
  apply In_set in Hin'; destruct Hin' as [[-> ->]|Hin'].
  - split; [apply round_is_cents | exact Hne].
  - destruct (get d dg) as [dm|] eqn:E; [|destruct Hin'].
    apply get_In in E; eapply Hdg; eauto.
Qed.

Lemma updateDebtGraph_netOf dg d c a id :
  dg_ok dg -> is_cents a ->
  netOf (updateDebtGraph dg d c a) id == netOf dg id + edgeTerm id d c a.
Proof.
  intros Hdg Ha; unfold updateDebtGraph, netOf.
  rewrite sumMap_set, sumMap_set.
  destruct (get d dg) as [dm|] eqn:Ed.
  - apply get_In in Ed.
    destruct (get c dm) as [old|] eqn:Ec.
    + apply get_In in Ec; destruct (Hdg d dm c old Ed Ec) as [Hold _].
      rewrite (edgeTerm_plus id d c old a (CurrencyUtils.add [old; a]))
        by (apply add_cents; assumption).
      ring.
    + rewrite (edgeTerm_plus id d c 0 a (CurrencyUtils.add [0; a]))
        by (apply add_cents; auto using is_cents_0).
      rewrite edgeTerm_0; ring.
  - cbn [get]; rewrite sumMap_nil.
    rewrite (edgeTerm_plus id d c 0 a (CurrencyUtils.add [0; a]))
      by (apply add_cents; auto using is_cents_0).
    rewrite edgeTerm_0; ring.
Qed.

(** *** Folding the graph: [computeNetBalances] *)

Lemma valueAt_set_same k v (m : Map Q) : valueAt (set k v m) k = v.
Proof. unfold valueAt; now rewrite get_set_same. Qed.

Lemma valueAt_set_other k k' v (m : Map Q) :
  k' <> k -> valueAt (set k v m) k' = valueAt m k'.
Proof. intros H; unfold valueAt; now rewrite get_set_other. Qed.




(** *** Direct accumulation: [updateUserBalance] *)

Lemma accumulate_cents (x : Q) (y : option Q) :
  is_cents x -> is_cents (num y) ->
  (if truthy y then CurrencyUtils.add [x; num y] else x) == x + num y
  /\ is_cents (if truthy y then CurrencyUtils.add [x; num y] else x).
Proof.
  intros Hx Hy; destruct (truthy y) eqn:E.
  - split; [apply add_cents; assumption | apply round_is_cents].
  - split; [|exact Hx].
    destruct y as [q|]; cbn [num]; [|ring].
    unfold truthy in E; apply negb_false_iff, Qeq_bool_iff in E.
    rewrite E; ring.
Qed.

Lemma updateUserBalance_totals names ub id paid owed :
  balances_ok ub -> is_cents (num paid) -> is_cents (num owed) ->
  balances_ok (updateUserBalance names ub id paid owed)
  /\ forall id',
       paidOf (updateUserBalance names ub id paid owed) id'
       == paidOf ub id' + (if String.eqb id id' then num paid else 0)
       /\ shareOf (updateUserBalance names ub id paid owed) id'
          == shareOf ub id' + (if String.eqb id id' then num owed else 0).
Proof.
  intros Hub Hpaid Howed; unfold updateUserBalance.
  set (existing := match get id ub with Some b => b | None => _ end).
  assert (Hex : is_cents (ub_totalPaid existing)
                /\ is_cents (ub_totalShare existing)).
  { unfold existing; destruct (get id ub) as [b|] eqn:E.
    - apply get_In in E; destruct (Hub id b E) as (H1 & H2 & _); auto.
    - cbn; auto using is_cents_0. }
  destruct Hex as [Hep Hes].
  destruct (accumulate_cents (ub_totalPaid existing) paid Hep Hpaid)
    as [Etp Htp].
  destruct (accumulate_cents (ub_totalShare existing) owed Hes Howed)
    as [Ets Hts].
  set (totalPaid := if truthy paid then _ else _) in *.
  set (totalShare := if truthy owed then _ else _) in *.
  split.
  - intros k b Hin; apply In_set in Hin.
    destruct Hin as [[_ ->]|Hin]; [|apply (Hub k b Hin)].
    cbn [ub_totalPaid ub_totalShare ub_balance].
    split; [exact Htp|]; split; [exact Hts|].
    apply subtract_cents; assumption.
  - intros id'; unfold paidOf, shareOf.
    destruct (String.eqb id id') eqn:E.
    + apply String.eqb_eq in E; subst id'.
      rewrite get_set_same; cbn [ub_totalPaid ub_totalShare].
      rewrite Etp, Ets; unfold existing.
      destruct (get id ub); cbn; split; ring.
    + apply String.eqb_neq in E.
      rewrite get_set_other by congruence.
      destruct (get id' ub); split; ring.
Qed.


(** *** One expense *)

Lemma processShares_totals names payer shares :
  forall st,
    balances_ok (fst st) -> dg_ok (snd st) -> cents_shares shares ->
    let st' := fold_left (processShare names payer) shares st in
    balances_ok (fst st') /\ dg_ok (snd st')
    /\ forall id,
         paidOf (fst st') id == paidOf (fst st) id
         /\ shareOf (fst st') id == shareOf (fst st) id + charged id shares
         /\ netOf (snd st') id == netOf (snd st) id + lent id payer shares.
Proof.
  unfold charged, lent.
  induction shares as [|s shares IH]; intros st Hub Hdg Hsh;
    cbn [fold_left map].
  - split; [exact Hub|]; split; [exact Hdg|].
    intros id; rewrite sum_nil; repeat split; ring.
  - inversion Hsh as [|? ? Hs Hsh']; subst.
    destruct (updateUserBalance_totals names (fst st) (userId s) None (amount s)
                Hub is_cents_0 Hs) as [Hub1 Htot1].
    set (st1 := processShare names payer st s).
    assert (Hfst : fst st1
                   = updateUserBalance names (fst st) (userId s) None (amount s))
      by (unfold st1, processShare; destruct (negb _); reflexivity).
    assert (Hdg1 : dg_ok (snd st1)
                   /\ forall id,
                        netOf (snd st1) id
                        == netOf (snd st) id
                           + (if negb (String.eqb (userId s) payer)
                              then edgeTerm id (userId s) payer (num (amount s))
                              else 0)).
    { unfold st1, processShare.
      destruct (String.eqb (userId s) payer) eqn:E; cbn [negb snd].
      - split; [exact Hdg | intros id; ring].
      - apply String.eqb_neq in E; split.
        + apply updateDebtGraph_ok; auto.
        + intros id; apply updateDebtGraph_netOf; assumption. }
    destruct Hdg1 as [Hdg1 Hnet1].
    destruct (IH st1) as (Hub' & Hdg' & Htot');
      [rewrite Hfst; exact Hub1 | exact Hdg1 | exact Hsh' |].
    split; [exact Hub'|]; split; [exact Hdg'|].
    intros id; destruct (Htot' id) as (Hp & Hs' & Hn).
    destruct (Htot1 id) as [Hp1 Hs1].
    rewrite Hfst in Hp, Hs'.
    rewrite !sum_cons; repeat split.
    + rewrite Hp, Hp1; cbn [num]; destruct (String.eqb (userId s) id); ring.
    + rewrite Hs', Hs1; ring.
    + rewrite Hn, Hnet1; ring.
Qed.

(** Per expense, the payer's credit minus the charges equals what the debt
    edges carry: the payer's own share adds an edge to nobody. *)
Lemma expense_terms id payer shares :
  (if String.eqb payer id then sum (amounts_of shares) else 0)
  - charged id shares
  == lent id payer shares.
Proof.
  unfold charged, lent, amounts_of, edgeTerm.
  destruct (String.eqb payer id) eqn:Ep;
    induction shares as [|s shares IH]; cbn [map];
    rewrite ?sum_nil, ?sum_cons; try ring; rewrite <- IH;
    destruct (String.eqb (userId s) payer) eqn:E; cbn [negb];
    try (apply String.eqb_eq in E; rewrite E, Ep);
    try destruct (String.eqb (userId s) id); ring.
Qed.

(** *** The shares the engine computes are whole cents *)

Lemma add_remainder_cents_is_cents r l :
  Forall is_cents l -> Forall is_cents (CurrencyUtils.add_remainder_cents r l).
Proof.
  revert l; induction r as [|r IH]; intros l Hl; destruct l as [|x l];
    cbn [CurrencyUtils.add_remainder_cents]; auto.
  inversion Hl; subst; constructor; [apply round_is_cents | auto].
Qed.

Lemma inject_div_is_cents (z : Z) :
  is_cents (inject_Z z / CurrencyUtils.MULTIPLIER).
Proof.
  exists z; change CurrencyUtils.MULTIPLIER with 100.
  unfold cents, Qdiv, Qmult, Qinv, inject_Z, Qeq; simpl; lia.
Qed.

Lemma distribute_is_cents total n amounts :
  CurrencyUtils.distribute total n = Ok amounts -> Forall is_cents amounts.
Proof.
  unfold CurrencyUtils.distribute.
  destruct (n <=? 0)%Z; [discriminate|].
  destruct (Qltb total 0); [discriminate|].
  intros H; injection H as <-.
  apply add_remainder_cents_is_cents, Forall_forall.
  intros x Hx; apply repeat_spec in Hx; subst x.
  apply inject_div_is_cents.
Qed.

Lemma array_set_is_cents i v l :
  is_cents v -> Forall is_cents l -> Forall is_cents (array_set i v l).
Proof.
  intros Hv; revert i; induction l as [|x l IH]; intros i Hl;
    destruct i; cbn [array_set]; auto; inversion Hl; subst; constructor; auto.
Qed.

Lemma adjust_rounding_is_cents total amounts :
  Forall is_cents amounts ->
  Forall is_cents (CurrencyUtils.adjust_rounding total amounts).
Proof.
  intros H; unfold CurrencyUtils.adjust_rounding.
  destruct (Qltb _ _); [|exact H].
  destruct (Math_max amounts); [|exact H].
  apply array_set_is_cents; [apply round_is_cents | exact H].
Qed.

Lemma multiplied_is_cents (f : Q -> Q) (l : list Q) :
  Forall is_cents (map (fun x => CurrencyUtils.round (f x)) l).
Proof.
  apply Forall_forall; intros y Hy; apply in_map_iff in Hy.
  destruct Hy as (x & <- & _); apply round_is_cents.
Qed.

Lemma with_amounts_cents shares amounts :
  Forall is_cents amounts -> cents_shares (with_amounts shares amounts).
Proof.
  revert amounts; induction shares as [|s shares IH]; intros amounts Ha;
    destruct amounts as [|a amounts]; cbn [with_amounts]; constructor;
    cbn [amount num]; auto using is_cents_0.
  - apply IH; constructor.
  - inversion Ha; assumption.
  - apply IH; inversion Ha; assumption.
Qed.

Lemma calculateShares_cents e shares :
  calculateShares e = Ok shares -> cents_shares shares.
Proof.
  unfold calculateShares, calculateEqualShares, calculatePercentageShares,
    calculateCustomShares, calculateWeightedShares.
  destruct (e_splitType e).
  - destruct (CurrencyUtils.distribute _ _) as [amounts|] eqn:E; simpl;
      intros H; inversion H.
    apply with_amounts_cents, (distribute_is_cents _ _ _ E).
  - unfold CurrencyUtils.distributeByPercentages.
    destruct (Qltb _ _); simpl; intros H; inversion H.
    apply with_amounts_cents, adjust_rounding_is_cents.
    unfold CurrencyUtils.multiply.
    apply (multiplied_is_cents (fun pct => e_amount e * (pct / 100))).
  - destruct (negb _); intros H; inversion H.
    apply Forall_forall; intros s Hs; apply in_map_iff in Hs.
    destruct Hs as (s0 & <- & _); cbn [amount num]; apply round_is_cents.
  - unfold CurrencyUtils.distributeByShares.
    destruct (Qeq_bool _ _); simpl; intros H; inversion H.
    apply with_amounts_cents, adjust_rounding_is_cents.
    unfold CurrencyUtils.multiply.
    apply (multiplied_is_cents
             (fun share => e_amount e * (share / sum (map value (e_participants e))))).
Qed.

(** *** All expenses *)

Lemma amounts_of_cents shares :
  cents_shares shares -> Forall is_cents (amounts_of shares).
Proof.
  unfold cents_shares, amounts_of; intros H; apply Forall_forall.
  intros x Hx; apply in_map_iff in Hx; destruct Hx as (s & <- & Hs).
  rewrite Forall_forall in H; apply H, Hs.
Qed.

Lemma processExpense_agree names st e st' :
  processExpense names st e = Ok st' ->
  exact_shares e ->
  balances_ok (fst st) -> dg_ok (snd st) ->
  balances_ok (fst st') /\ dg_ok (snd st')
  /\ forall id,
       paidOf (fst st') id - shareOf (fst st') id - netOf (snd st') id
       == paidOf (fst st) id - shareOf (fst st) id - netOf (snd st) id.
Proof.
  unfold processExpense.
  destruct (calculateShares e) as [shares|msg] eqn:Es; simpl; [|discriminate].
  intros H Hexact Hub Hdg; injection H as <-.
  pose proof (calculateShares_cents e shares Es) as Hcents.
  pose proof (Hexact shares Es) as Hsum.
  assert (Hamount : is_cents (e_amount e)).
  { destruct (is_cents_sum _ (amounts_of_cents _ Hcents)) as [z Hz].
    exists z; rewrite <- Hsum; exact Hz. }
  destruct (updateUserBalance_totals names (fst st) (e_paidBy e)
              (Some (e_amount e)) None Hub Hamount is_cents_0)
    as [Hub1 Htot1].
  match goal with
  | |- context [fold_left _ shares ?st0] =>
      destruct (processShares_totals names (e_paidBy e) shares st0
                  Hub1 Hdg Hcents) as (Hub' & Hdg' & Htot')
  end.
  cbv zeta in Hub', Hdg', Htot'; cbn [fst snd] in *.
  split; [exact Hub'|]; split; [exact Hdg'|].
  intros id; destruct (Htot' id) as (Hp & Hs & Hn).
  destruct (Htot1 id) as [Hp1 Hs1].
  rewrite Hp, Hs, Hn, Hp1, Hs1; cbn [num].
  rewrite <- (expense_terms id (e_paidBy e) shares).
  destruct (String.eqb (e_paidBy e) id); rewrite ?Hsum; ring.
Qed.


(** *** Failures of a calculation *)







(** ** Shares that sum exactly to the amount *)





Lemma sum_map_ext {A : Type} (f g : A -> Q) (l : list A) :
  (forall x, In x l -> f x == g x) -> sum (map f l) == sum (map g l).
Proof.
  induction l as [|x l IH]; intros H; cbn [map]; [reflexivity|].
  rewrite !sum_cons, (H x) by (left; reflexivity).
  rewrite IH; [reflexivity|].
  intros y Hy; apply H; right; exact Hy.
Qed.





(** ** Conservation *)

Lemma updateUserBalance_surplus names ub id paid owed :
  balances_ok ub -> is_cents (num paid) -> is_cents (num owed) ->
  surplus (updateUserBalance names ub id paid owed)
  == surplus ub + num paid - num owed.
Proof.
  intros Hub Hpaid Howed.
  destruct (updateUserBalance_totals names ub id paid owed Hub Hpaid Howed)
    as [_ Htot].
  destruct (Htot id) as [Hp Hs]; rewrite String.eqb_refl in Hp, Hs.
  unfold paidOf, shareOf in Hp, Hs; revert Hp Hs.
  unfold surplus, updateUserBalance; rewrite sumMap_set, !get_set_same.
  cbn [ub_totalPaid ub_totalShare].
  destruct (get id ub) as [b|]; intros Hp Hs; rewrite Hp, Hs; ring.
Qed.

Lemma processShares_surplus names payer shares :
  forall st,
    balances_ok (fst st) -> cents_shares shares ->
    surplus (fst (fold_left (processShare names payer) shares st))
    == surplus (fst st) - sum (amounts_of shares).
Proof.
  unfold amounts_of.
  induction shares as [|s shares IH]; intros st Hub Hsh; cbn [fold_left map].
  - rewrite sum_nil; ring.
  - inversion Hsh as [|? ? Hs Hsh']; subst.
    assert (Hfst : fst (processShare names payer st s)
                   = updateUserBalance names (fst st) (userId s) None (amount s))
      by (unfold processShare; destruct (negb _); reflexivity).
    destruct (updateUserBalance_totals names (fst st) (userId s) None (amount s)
                Hub is_cents_0 Hs) as [Hub1 _].
    rewrite IH, Hfst, updateUserBalance_surplus, sum_cons;
      auto using is_cents_0; [cbn [num]; ring|].
    rewrite Hfst; exact Hub1.
Qed.

Lemma processExpense_surplus names st e st' :
  processExpense names st e = Ok st' ->
  exact_shares e -> balances_ok (fst st) ->
  surplus (fst st') == surplus (fst st).
Proof.
  unfold processExpense.
  destruct (calculateShares e) as [shares|msg] eqn:Es; simpl; [|discriminate].
  intros H Hexact Hub; injection H as <-.
  pose proof (calculateShares_cents e shares Es) as Hcents.
  pose proof (Hexact shares Es) as Hsum.
  assert (Hamount : is_cents (e_amount e)).
  { destruct (is_cents_sum _ (amounts_of_cents _ Hcents)) as [z Hz].
    exists z; rewrite <- Hsum; exact Hz. }
  destruct (updateUserBalance_totals names (fst st) (e_paidBy e)
              (Some (e_amount e)) None Hub Hamount is_cents_0) as [Hub1 _].
  rewrite processShares_surplus by assumption.
  cbn [fst]; rewrite updateUserBalance_surplus by auto using is_cents_0.
  cbn [num]; rewrite Hsum; ring.
Qed.

Lemma processExpenses_surplus names es :
  forall st st',
    processExpenses names st es = Ok st' ->
    (forall e, In e es -> exact_shares e) ->
    balances_ok (fst st) -> dg_ok (snd st) ->
    balances_ok (fst st') /\ surplus (fst st') == surplus (fst st).
Proof.
  induction es as [|e es IH]; intros st st' Hrun Hexact Hub Hdg;
    cbn [processExpenses] in Hrun.
  - injection Hrun as <-; split; [exact Hub | reflexivity].
  - destruct (processExpense names st e) as [st1|msg] eqn:E1; simpl in Hrun;
      [|discriminate].
    pose proof (Hexact e (or_introl eq_refl)) as He.
    destruct (processExpense_agree _ _ _ _ E1 He Hub Hdg) as (Hub1 & Hdg1 & _).
    pose proof (processExpense_surplus _ _ _ _ E1 He Hub) as Hs1.
    destruct (IH _ _ Hrun) as [Hub' Hs'];
      [intros e' Hin; apply Hexact; right; exact Hin | exact Hub1 | exact Hdg1 |].
    split; [exact Hub' | rewrite Hs', Hs1; reflexivity].
Qed.

(** In the exact case, when the shares computed for every expense sum
    exactly to the expense's amount, an accepted expense list yields
    balances that sum to exactly zero. *)
Lemma conservation (es : list EnhancedExpense) (c : Calculator) :
  constructor es = Ok c ->
  (forall e, In e es -> exact_shares e) ->
  sum (map ub_balance (getUserBalances c)) == 0.
Proof.
  intros Hc Hexact.
  destruct (constructor_balances es c Hc) as (_ & _ & _ & _ & _ & Hrun).
  destruct (processExpenses_surplus _ _ _ _ Hrun Hexact) as [Hub Hsur].
  { intros k b []. }
  { intros d m c' a []. }
  cbn [fst] in *.
  unfold getUserBalances.
  rewrite (sum_perm _ _ (Permutation_map ub_balance
                           (sort_desc_perm ub_balance (values (userBalances c))))).
  assert (E : sum (map ub_balance (values (userBalances c)))
              == surplus (userBalances c)).
  { unfold surplus, sumMap, values; rewrite map_map.
    apply sum_map_ext; intros [k b] Hin; cbn [fst snd].
    apply (Hub k b Hin). }
  rewrite E, Hsur; reflexivity.
Qed.

(** C1.  Conservation fails on an accepted list: the six-way CUSTOM split
    of 100 passes the validation (its literal values 16.666, five times,
    and 16.67 add up to 100), every value is rounded to 16.67 on its own
    and nothing is redistributed, so alice is owed 83.33, the five others
    owe 16.67 each, and the balances of the returned result sum to -0.02,
    outside the 0.01 tolerance. *)
Theorem conservation_fails_on_rounded_custom_values :
  match calculate six_way_custom with
  | Some (Ok r) =>
      map ub_balance (r_userBalances r)
      = [83.33; - 16.67; - 16.67; - 16.67; - 16.67; - 16.67]
      /\ sum (map ub_balance (r_userBalances r)) == - 0.02
      /\ CurrencyUtils.isZero (sum (map ub_balance (r_userBalances r))) = false
      /\ ~ Math_abs (sum (map ub_balance (r_userBalances r))) <= 0.01
  | _ => False
  end.
Proof.
  vm_compute; repeat split; try reflexivity.
  intros H; apply H; reflexivity.
Qed.


(** * Further properties of the currency arithmetic *)

(** ** Rounding *)



Lemma round_bounds (x : Q) :
  x - (1 # 200) < CurrencyUtils.round x
  /\ CurrencyUtils.round x <= x + (1 # 200).
Proof.
  rewrite round_spec; unfold Math_round.
  pose proof (Qfloor_le (x * 100 + (1 # 2))) as Hle.
  pose proof (Qlt_floor (x * 100 + (1 # 2))) as Hlt.
  rewrite inject_Z_plus in Hlt.
  set (z := Qfloor (x * 100 + (1 # 2))) in *.
  assert (E : cents z == inject_Z z / 100).
  { unfold cents, Qdiv, Qmult, Qinv, inject_Z, Qeq; simpl; lia. }
  rewrite E; unfold Qdiv.
  change (/ 100) with (1 # 100).
  change (inject_Z 1) with 1 in Hlt.
  split; lra.
Qed.

(** X1.  On an argument of the ordinary range [round] returns a whole
    number of cents that is less than one cent away from the argument. *)
Theorem round_within_a_cent (x : Q) :
  in_range x ->
  is_cents (CurrencyUtils.round x)
  /\ Qabs (CurrencyUtils.round x - x) < 1 # 100.
Proof.
  intros _; split; [apply round_is_cents|].
  destruct (round_bounds x) as [Hlo Hhi].
  apply Qabs_Qlt_condition; split; lra.
Qed.

Lemma round_within_a_cent_witness :
  is_cents (CurrencyUtils.round 1.005)
  /\ Qabs (CurrencyUtils.round 1.005 - 1.005) < 1 # 100.
Proof.
  apply (round_within_a_cent 1.005).
  vm_compute; discriminate.
Defined.


(** X3.  [round] is monotone: it never reverses the order of two
    amounts. *)
Theorem round_monotone (x y : Q) :
  x <= y -> CurrencyUtils.round x <= CurrencyUtils.round y.
Proof.
  intros H; rewrite !round_spec; apply cents_le.
  unfold Math_round; apply Qfloor_resp_le; lra.
Qed.

Lemma round_monotone_witness :
  CurrencyUtils.round 10.124 <= CurrencyUtils.round 10.125.
Proof.
  apply (round_monotone 10.124 10.125).
  unfold Qle; simpl; lia.
Defined.

(** ** Sums, differences and comparisons of whole cents *)





(** X6.  [divide] throws exactly when the divisor is zero; otherwise,
    for a quotient of the ordinary range, it returns a whole number of
    cents less than one cent away from the exact quotient. *)
Theorem divide_result (a b : Q) :
  (CurrencyUtils.divide a b = Throw "Division by zero" <-> b == 0)
  /\ (~ b == 0 -> in_range (a / b) ->
      exists q, CurrencyUtils.divide a b = Ok q
                /\ is_cents q
                /\ Qabs (q - a / b) < 1 # 100).
Proof.
  unfold CurrencyUtils.divide.
  destruct (Qeq_bool b 0) eqn:E.
  - apply Qeq_bool_iff in E; split; [tauto | contradiction].
  - split.
    + split; [discriminate|].
      intros H; apply Qeq_bool_iff in H; congruence.
    + intros _ _; exists (CurrencyUtils.round (a / b)).
      split; [reflexivity|].
      split; [apply round_is_cents|].
      destruct (round_bounds (a / b)) as [Hlo Hhi].
      apply Qabs_Qlt_condition; split; lra.
Qed.

Lemma divide_result_witness :
  exists q, CurrencyUtils.divide 100 3 = Ok q
            /\ is_cents q
            /\ Qabs (q - 100 / 3) < 1 # 100.
Proof.
  apply (divide_result 100 3).
  - intros E; discriminate E.
  - vm_compute; discriminate.
Defined.

(** ** [distribute] on any total *)





(** ** The weighted distributions *)











(** * Further properties of the balance engine *)

(** ** Order of the lists in the result *)






(** ** Failures of a calculation *)

Lemma settlement_plan_exists (c : Calculator) :
  exists plan, getOptimizedSettlements c = Some plan.
Proof.
  unfold getOptimizedSettlements, optimizeSettlements.
  match goal with
  | |- context [settleLoop ?nm ?f ?cs ?ds] =>
      destruct (settleLoop_terminates nm f cs ds) as (plan & -> & _);
      [lia | cbn [option_map]; eauto]
  end.
Qed.

Lemma processExpense_outcome names st e :
  match calculateShares e with
  | Ok _ => exists st', processExpense names st e = Ok st'
  | Throw msg => processExpense names st e = Throw msg
  end.
Proof.
  unfold processExpense; destruct (calculateShares e); simpl; eauto.
Qed.

Lemma processExpenses_outcome names es :
  forall st,
    ((exists st', processExpenses names st es = Ok st')
     <-> forall e, In e es -> exists shares, calculateShares e = Ok shares)
    /\ forall msg,
         processExpenses names st es = Throw msg
         <-> exists before e after,
               es = before ++ e :: after
               /\ (forall e', In e' before ->
                              exists shares, calculateShares e' = Ok shares)
               /\ calculateShares e = Throw msg.
Proof.
  induction es as [|e es IH]; intros st; cbn [processExpenses].
  - split.
    + split; [intros _ e [] | eauto].
    + intros msg; split; [discriminate|].
      intros (before & e & after & E & _); destruct before; discriminate E.
  - pose proof (processExpense_outcome names st e) as He.
    destruct (calculateShares e) as [shares|msg0] eqn:Es.
    + destruct He as [st1 He]; rewrite He; simpl.
      destruct (IH st1) as [IHok IHthrow]; split.
      * rewrite IHok; split.
        -- intros H e' [<-|Hin]; eauto.
        -- intros H e' Hin; apply H; right; exact Hin.
      * intros msg; rewrite IHthrow; split.
        -- intros (before & e' & after & -> & Hb & Ht).
           exists (e :: before), e', after; split; [reflexivity|].
           split; [|exact Ht].
           intros e0 [<-|Hin]; eauto.
        -- intros (before & e' & after & E & Hb & Ht).
           destruct before as [|b before]; simpl in E; injection E as -> ->.
           ++ congruence.
           ++ exists before, e', after; split; [reflexivity|].
              split; [|exact Ht].
              intros e0 Hin; apply Hb; right; exact Hin.
    + rewrite He; simpl; split.
      * split; [intros [st' H]; discriminate H|].
        intros H; destruct (H e (or_introl eq_refl)) as [sh Hsh]; congruence.
      * intros msg; split.
        -- intros H; injection H as <-.
           exists [], e, es; split; [reflexivity|].
           split; [intros e' [] | exact Es].
        -- intros (before & e' & after & E & Hb & Ht).
           destruct before as [|b before]; simpl in E; injection E as -> ->.
           ++ congruence.
           ++ destruct (Hb b (or_introl eq_refl)) as [sh Hsh]; congruence.
Qed.

(** X12.  A calculator is constructed exactly when the shares of every
    expense can be computed; otherwise the constructor throws the message
    of the first expense in the list whose shares cannot be computed,
    whatever comes after it. *)
Theorem constructor_all_or_nothing (es : list EnhancedExpense) :
  ((exists c, constructor es = Ok c)
   <-> forall e, In e es -> exists shares, calculateShares e = Ok shares)
  /\ forall msg,
       constructor es = Throw msg
       <-> exists before e after,
             es = before ++ e :: after
             /\ (forall e', In e' before ->
                            exists shares, calculateShares e' = Ok shares)
             /\ calculateShares e = Throw msg.
Proof.
  destruct (processExpenses_outcome (initializeUserNames es) es ([], []))
    as [Hok Hthrow].
  unfold constructor, calculateBalances.
  split.
  - rewrite <- Hok; split.
    + intros [c H].
      destruct (processExpenses _ _ es) as [st|msg]; [eauto | discriminate H].
    + intros [st H]; rewrite H; simpl; eauto.
  - intros msg; rewrite <- Hthrow.
    destruct (processExpenses _ _ es) as [st|msg']; simpl; split;
      try discriminate; intros H; injection H as <-; reflexivity.
Qed.

(** X13.  Once a calculator is constructed, [getCalculationResult] throws
    ("Division by zero") exactly when the expense list is empty; for every
    non-empty accepted list of the ordinary range it returns a result. *)
Theorem result_throws_only_when_empty (es : list EnhancedExpense)
    (c : Calculator) :
  constructor es = Ok c ->
  (es = [] <-> getCalculationResult c = Some (Throw "Division by zero"))
  /\ (es <> [] -> ordinary es ->
      exists r, getCalculationResult c = Some (Ok r)).
Proof.
  intros Hc.
  destruct (constructor_balances es c Hc) as (_ & Hnames & _).
  assert (Hnonempty : es <> [] ->
                      exists r, getCalculationResult c = Some (Ok r)).
  { intros Hne; unfold getCalculationResult.
    destruct (settlement_plan_exists c) as [plan ->].
    assert (Hlen : (0 < length (userNames c))%nat).
    { destruct es as [|e es]; [congruence|].
      assert (Hin : In (e_paidBy e) (keys (userNames c))).
      { rewrite Hnames; apply initializeUserNames_keys.
        exists e; split; [left; reflexivity | left; reflexivity]. }
      unfold keys in Hin; destruct (userNames c); [destruct Hin | simpl; lia]. }
    unfold CurrencyUtils.divide.
    destruct (Qeq_bool _ 0) eqn:E.
    - apply Qeq_bool_iff in E.
      unfold Qeq, inject_Z in E; simpl in E; lia.
    - simpl; eauto. }
  split; [|intros Hne _; exact (Hnonempty Hne)].
  split.
  - intros ->; vm_compute in Hc; injection Hc as <-; reflexivity.
  - intros H; destruct es as [|e es]; [reflexivity|].
    destruct Hnonempty as [r Hr]; [discriminate|]; congruence.
Qed.

Lemma constructor_all_or_nothing_witness :
  constructor (dinner ++ bad_percentages :: dinner)
  = Throw "Percentages must sum to 100".
Proof.
  apply (proj2 (constructor_all_or_nothing _)).
  exists dinner, bad_percentages, dinner; split; [reflexivity|].
  split; [|vm_compute; reflexivity].
  intros e' [<-|[]]; eexists; vm_compute; reflexivity.
Defined.

Lemma result_throws_only_when_empty_witness :
  exists (c : Calculator) (r : BalanceCalculationResult),
    constructor dinner = Ok c /\ getCalculationResult c = Some (Ok r).
Proof.
  destruct (constructor dinner) as [c|msg] eqn:E;
    [|vm_compute in E; discriminate E].
  destruct (proj2 (result_throws_only_when_empty dinner c E)) as [r Hr];
    [discriminate | in_ordinary_range |].
  exists c, r; split; [reflexivity | exact Hr].
Defined.


(** ** The debt graph and the debt relationships *)









(** ** Who pays whom *)

Lemma settleLoop_flow (names : Map string) (fuel : nat) :
  forall (creditors debtors : list (string * Q)) (plan : list Settlement),
    settleLoop names fuel creditors debtors = Some plan ->
    Forall (fun entry => is_cents (snd entry)) creditors ->
    Forall (fun entry => is_cents (snd entry)) debtors ->
    forall s, In s plan ->
      In (to s) (keys creditors) /\ In (from s) (keys debtors)
      /\ is_cents (s_amount s) /\ 1 # 100 < s_amount s.
Proof.
  induction fuel as [|fuel IH]; intros cs ds plan Hrun Hcs Hds s Hs.
  - destruct cs as [|[c ca] cs]; [|destruct ds as [|[d da] ds]];
      simpl in Hrun; inversion Hrun; subst; destruct Hs.
  - destruct cs as [|[c ca] cs];
      [simpl in Hrun; inversion Hrun; subst; destruct Hs|].
    destruct ds as [|[d da] ds];
      [simpl in Hrun; inversion Hrun; subst; destruct Hs|].
    cbn [settleLoop] in Hrun.
    set (settleAmount := Math_min ca da) in *.
    set (creditLeft := CurrencyUtils.subtract ca settleAmount) in *.
    set (debtLeft := CurrencyUtils.subtract da settleAmount) in *.
    set (cs' := if CurrencyUtils.isZero creditLeft then cs else _) in *.
    set (ds' := if CurrencyUtils.isZero debtLeft then ds else _) in *.
    destruct (settleLoop names fuel cs' ds') as [plan'|] eqn:Erec;
      [|discriminate Hrun].
    simpl in Hrun; injection Hrun as <-.
    inversion Hcs as [|? ? Hca Hcs0]; subst.
    inversion Hds as [|? ? Hda Hds0]; subst.
    cbn [snd] in *.
    assert (Hsettle : is_cents settleAmount)
      by (destruct (Math_min_cases ca da) as [E|E]; fold settleAmount in E;
          rewrite E; assumption).
    apply in_app_or in Hs; destruct Hs as [Hs|Hs].
    + destruct (Qltb (1 # 100) settleAmount) eqn:E; [|destruct Hs].
      destruct Hs as [<-|[]]; cbn [to from s_amount keys map fst].
      apply Qltb_true in E.
      split; [left; reflexivity|]; split; [left; reflexivity|].
      split; [apply round_is_cents | rewrite (round_id _ Hsettle); exact E].
    + assert (Hcs' : Forall (fun entry => is_cents (snd entry)) cs')
        by (unfold cs'; destruct (CurrencyUtils.isZero creditLeft);
            [exact Hcs0|];
            constructor; [apply round_is_cents | exact Hcs0]).
      assert (Hds' : Forall (fun entry => is_cents (snd entry)) ds')
        by (unfold ds'; destruct (CurrencyUtils.isZero debtLeft);
            [exact Hds0|];
            constructor; [apply round_is_cents | exact Hds0]).
      destruct (IH cs' ds' plan' Erec Hcs' Hds' s Hs) as (Hto & Hfrom & Hrest).
      split; [|split; [|exact Hrest]].
      * revert Hto; unfold cs'; destruct (CurrencyUtils.isZero creditLeft);
          simpl; tauto.
      * revert Hfrom; unfold ds'; destruct (CurrencyUtils.isZero debtLeft);
          simpl; tauto.
Qed.

Lemma Forall_perm_fst {A : Type} (P : A -> Prop) (l l' : list A) :
  Permutation l l' -> Forall P l' -> Forall P l.
Proof. intros Hp; apply Permutation_Forall, Permutation_sym, Hp. Qed.

(** X15.  Every settlement of the optimized plan is paid by a debtor (net
    balance below -0.01 in the fold of the debt graph) to a creditor (net
    balance above 0.01); nobody pays themselves, and the amount is a whole
    number of cents above 0.01. *)
Theorem settlements_flow (c : Calculator) (plan : list Settlement)
    (s : Settlement) :
  getOptimizedSettlements c = Some plan ->
  In s plan ->
  let netBalances := computeNetBalances (userNames c) (debtGraph c) in
  (exists credit, In (to s, credit) netBalances /\ 1 # 100 < credit)
  /\ (exists debt, In (from s, debt) netBalances /\ debt < - (1 # 100))
  /\ from s <> to s
  /\ is_cents (s_amount s) /\ 1 # 100 < s_amount s.
Proof.
  intros Hplan Hs nb.
  destruct (computeNetBalances_wf (userNames c) (debtGraph c)) as [Hnd Hcents].
  fold nb in Hnd, Hcents.
  unfold getOptimizedSettlements, optimizeSettlements in Hplan; fold nb in Hplan.
  set (cs := sort_desc snd (creditorsOf nb)) in *.
  set (ds := sort_desc snd (debtorsOf nb)) in *.
  destruct (settleLoop (userNames c) _ cs ds) as [plan0|] eqn:Eloop;
    [|discriminate Hplan].
  cbn [option_map] in Hplan; injection Hplan as <-.
  apply (Permutation_in _ (sort_desc_perm s_amount plan0)) in Hs.
  assert (Hcs : Forall (fun entry => is_cents (snd entry)) cs).
  { apply (Forall_perm_fst _ _ _ (sort_desc_perm snd (creditorsOf nb))).
    apply Forall_forall; intros [p a] Hin; apply creditorsOf_In in Hin.
    eapply Hcents, (proj1 Hin). }
  assert (Hds : Forall (fun entry => is_cents (snd entry)) ds).
  { apply (Forall_perm_fst _ _ _ (sort_desc_perm snd (debtorsOf nb))).
    apply Forall_forall; intros [p a] Hin; apply debtorsOf_In in Hin.
    destruct Hin as (b & Hin & Hlt & ->); cbn [snd].
    destruct (Hcents p b Hin) as [z Hz]; exists (- z)%Z.
    unfold Math_abs; rewrite Qabs_neg by lra.
    rewrite Hz; unfold cents, Qopp, Qeq; simpl; lia. }
  destruct (settleLoop_flow _ _ _ _ _ Eloop Hcs Hds s Hs)
    as (Hto & Hfrom & Hc & Hlt).
  apply (Permutation_in _ (Permutation_map fst (sort_desc_perm snd _))) in Hto.
  apply (Permutation_in _ (Permutation_map fst (sort_desc_perm snd _))) in Hfrom.
  apply in_map_iff in Hto; destruct Hto as ([p a] & Ep & Hto).
  apply in_map_iff in Hfrom; destruct Hfrom as ([p' a'] & Ep' & Hfrom).
  cbn [fst] in Ep, Ep'; subst p p'.
  apply creditorsOf_In in Hto; destruct Hto as [Hto Hcredit].
  apply debtorsOf_In in Hfrom; destruct Hfrom as (b & Hfrom & Hdebt & _).
  split; [exists a; auto|]; split; [exists b; auto|].
  split; [|auto].
  intros E; rewrite E in Hfrom.
  rewrite (NoDup_keys_functional nb _ _ _ Hnd Hfrom Hto) in Hdebt; lra.
Qed.

Lemma settlements_flow_witness :
  exists (c : Calculator) (plan : list Settlement) (s : Settlement),
    constructor dinner = Ok c
    /\ getOptimizedSettlements c = Some plan
    /\ In s plan
    /\ from s <> to s
    /\ is_cents (s_amount s) /\ 1 # 100 < s_amount s.
Proof.
  destruct (constructor dinner) as [c|msg] eqn:E;
    [|vm_compute in E; discriminate E].
  assert (Hs : exists plan s, getOptimizedSettlements c = Some plan /\ In s plan).
  { pose proof E as E'; vm_compute in E'; injection E' as <-.
    eexists _, _; split; [vm_compute; reflexivity | left; reflexivity]. }
  destruct Hs as (plan & s & Hplan & Hs).
  destruct (settlements_flow c plan s Hplan Hs) as (_ & _ & H).
  exists c, plan, s; auto.
Defined.

(** ** The fold of the debt graph conserves *)





(** ** Balanced trips *)


Lemma filter_none {A : Type} (f : A -> bool) (l : list A) :
  (forall x, In x l -> f x = false) -> filter f l = [].
Proof.
  induction l as [|x l IH]; intros H; cbn [filter]; [reflexivity|].
  rewrite (H x) by (left; reflexivity).
  apply IH; intros y Hy; apply H; right; exact Hy.
Qed.




(** ** Expenses shared by the payer alone *)






(** ** Expenses of amount zero *)








(** ** The balance records *)






(** ** Legacy expenses *)



(** X22.  A legacy expense whose [sharedBy] is missing or empty converts
    to an expense without participants, and a calculator over a list that
    holds only such an expense cannot be constructed: the equal split
    throws "Shares must be positive". *)
Theorem legacy_expense_without_sharers (l : LegacyExpense) :
  l_sharedBy l = None \/ l_sharedBy l = Some [] ->
  e_participants (convertFromLegacyExpense l) = []
  /\ constructor [convertFromLegacyExpense l]
     = Throw "Shares must be positive".
Proof.
  intros H.
  assert (Hp : e_participants (convertFromLegacyExpense l) = [])
    by (unfold convertFromLegacyExpense; cbn [e_participants];
        destruct H as [-> | ->]; reflexivity).
  split; [exact Hp|].
  unfold constructor, calculateBalances; cbn [processExpenses].
  unfold processExpense, calculateShares.
  change (e_splitType (convertFromLegacyExpense l)) with EQUAL; cbv iota.
  unfold calculateEqualShares; rewrite Hp; reflexivity.
Qed.

Lemma legacy_expense_without_sharers_witness :
  e_participants (convertFromLegacyExpense legacy_orphan) = []
  /\ constructor [convertFromLegacyExpense legacy_orphan]
     = Throw "Shares must be positive".
Proof.
  apply (legacy_expense_without_sharers legacy_orphan).
  left; reflexivity.
Defined.

(** ** The debt graph as a table of edges *)

(** X23.  Recording a debt adds the amount, rounded to cents, to the edge
    from the debtor to the creditor and leaves every other edge of the
    graph as it was. *)
Theorem updateDebtGraph_edges (dg : Map (Map Q)) (d c : string) (a : Q)
    (d' c' : string) :
  edge (updateDebtGraph dg d c a) d' c'
  = if (String.eqb d' d && String.eqb c' c)%bool
    then CurrencyUtils.add [edge dg d c; a]
    else edge dg d' c'.
Proof.
  unfold updateDebtGraph, edge.
  destruct (String.eqb_spec d' d) as [->|Hd]; cbn [andb].
  - rewrite get_set_same.
    destruct (String.eqb_spec c' c) as [->|Hc].
    + rewrite valueAt_set_same.
      destruct (get d dg) as [m|]; reflexivity.
    + rewrite valueAt_set_other by exact Hc.
      destruct (get d dg) as [m|]; reflexivity.
  - rewrite get_set_other by exact Hd; reflexivity.
Qed.


(** ** The totals in closed form *)









(** * The balances endpoint *)

Lemma round2_round (x : Q) : round2 x = CurrencyUtils.round x.
Proof. reflexivity. Qed.

Lemma round2_above_cent (x : Q) :
  1 # 100 < x -> is_cents (round2 x) /\ 1 # 100 <= round2 x.
Proof.
  intros Hx; rewrite round2_round.
  pose proof (round_is_cents x) as Hc; split; [exact Hc|].
  destruct Hc as [z Hz]; destruct (round_bounds x) as [Hlo _].
  rewrite Hz in *; unfold cents in *.
  assert (Hpos : (0 < z)%Z).
  { apply Z.nle_gt; intros Hle.
    assert (z # 100 <= 0) by (unfold Qle; simpl; lia).
    lra. }
  unfold Qle; simpl; lia.
Qed.

Lemma settled_refl (b : UserBalance) : settled b b.
Proof. unfold settled; repeat split; auto; lra. Qed.

Lemma settled_trans (a b c : UserBalance) :
  settled a b -> settled b c -> settled a c.
Proof.
  unfold settled; intros (A1 & A2 & A3 & A4 & A5 & A6 & A7)
                         (B1 & B2 & B3 & B4 & B5 & B6 & B7).
  repeat split; try congruence; [lra | auto].
Qed.

Lemma Forall2_settled_refl (l : list UserBalance) : Forall2 settled l l.
Proof. induction l; constructor; auto using settled_refl. Qed.

Lemma Forall2_settled_trans (l1 l2 l3 : list UserBalance) :
  Forall2 settled l1 l2 -> Forall2 settled l2 l3 -> Forall2 settled l1 l3.
Proof.
  intros H; revert l3; induction H as [|a b l1 l2 Hab _ IH]; intros l3 H23;
    inversion H23; subst; constructor; eauto using settled_trans.
Qed.

(** The inner loop leaves every creditor settled, and each settlement it
    pushes goes from the debtor to a creditor that still had at least one
    cent to receive. *)
Lemma payCreditors_spec (debtor : UserBalance) (creditors : list UserBalance) :
  forall remainingDebt,
    let r := payCreditors debtor remainingDebt creditors in
    Forall2 settled creditors (fst r)
    /\ forall s, In s (snd r) ->
         from s = ub_userId debtor /\ fromName s = ub_name debtor
         /\ 1 # 100 <= remainingDebt
         /\ is_cents (s_amount s) /\ 1 # 100 <= s_amount s
         /\ exists creditor,
              In creditor creditors
              /\ to s = ub_userId creditor /\ toName s = ub_name creditor
              /\ 1 # 100 <= ub_balance creditor.
Proof.
  induction creditors as [|creditor rest IH]; intros remainingDebt;
    cbn [payCreditors].
  - split; [constructor | intros s []].
  - destruct (Qltb remainingDebt (1 # 100)) eqn:Ebreak.
    { split; [apply Forall2_settled_refl | intros s []]. }
    apply Qltb_false in Ebreak.
    destruct (Qltb (ub_balance creditor) (1 # 100)) eqn:Eskip.
    { destruct (IH remainingDebt) as [Hset Hs]; cbn [fst snd].
      split; [constructor; [apply settled_refl | exact Hset]|].
      intros s Hin; destruct (Hs s Hin) as (H1 & H2 & H3 & H4 & H5 & c & Hc & H6).
      repeat split; try assumption.
      exists c; split; [right; exact Hc | exact H6]. }
    apply Qltb_false in Eskip.
    set (settleAmount := Math_min remainingDebt (ub_balance creditor)).
    assert (Hmin : settleAmount <= remainingDebt
                   /\ settleAmount <= ub_balance creditor)
      by apply Math_min_le.
    destruct (Qltb (1 # 100) settleAmount) eqn:Epush.
    + apply Qltb_true in Epush.
      destruct (IH (remainingDebt - settleAmount)) as [Hset Hs]; cbn [fst snd].
      split.
      * constructor; [|exact Hset].
        unfold settled, reduced; cbn; repeat split; lra.
      * intros s [<-|Hin]; cbn [from fromName to toName s_amount].
        -- destruct (round2_above_cent settleAmount Epush) as [Hc Hge].
           repeat split; try assumption.
           exists creditor; repeat split; [left; reflexivity | assumption].
        -- destruct (Hs s Hin) as (H1 & H2 & H3 & H4 & H5 & c & Hc & H6).
           repeat split; try assumption.
           exists c; split; [right; exact Hc | exact H6].
    + destruct (IH remainingDebt) as [Hset Hs]; cbn [fst snd].
      split; [constructor; [apply settled_refl | exact Hset]|].
      intros s Hin; destruct (Hs s Hin) as (H1 & H2 & H3 & H4 & H5 & c & Hc & H6).
      repeat split; try assumption.
      exists c; split; [right; exact Hc | exact H6].
Qed.

Lemma Forall2_In_r {A B : Type} (R : A -> B -> Prop) l l' y :
  Forall2 R l l' -> In y l' -> exists x, In x l /\ R x y.
Proof.
  induction 1 as [|a b l l' Hab _ IH]; intros Hin; [destruct Hin|].
  destruct Hin as [<-|Hin]; [exists a; split; [left; reflexivity | exact Hab]|].
  destruct (IH Hin) as (x & Hx & HR); exists x; split; [right|]; assumption.
Qed.

Lemma Forall2_In_l {A B : Type} (R : A -> B -> Prop) l l' x :
  Forall2 R l l' -> In x l -> exists y, In y l' /\ R x y.
Proof.
  induction 1 as [|a b l l' Hab _ IH]; intros Hin; [destruct Hin|].
  destruct Hin as [<-|Hin]; [exists b; split; [left; reflexivity | exact Hab]|].
  destruct (IH Hin) as (y & Hy & HR); exists y; split; [right|]; assumption.
Qed.

(** The loop over the debtors. *)
Lemma settle_debtors_spec (debtors : list UserBalance) :
  forall (creditors : list UserBalance) (settlements : list Settlement),
    let st :=
      fold_left
        (fun st debtor =>
           let r := payCreditors debtor (Math_abs (ub_balance debtor)) (fst st) in
           (fst r, snd st ++ snd r))
        debtors (creditors, settlements) in
    Forall2 settled creditors (fst st)
    /\ forall s, In s (snd st) ->
         In s settlements
         \/ (is_cents (s_amount s) /\ 1 # 100 <= s_amount s
             /\ (exists debtor,
                   In debtor debtors
                   /\ from s = ub_userId debtor /\ fromName s = ub_name debtor)
             /\ (exists creditor,
                   In creditor creditors
                   /\ to s = ub_userId creditor /\ toName s = ub_name creditor
                   /\ 1 # 100 <= ub_balance creditor)).
Proof.
  induction debtors as [|debtor debtors IH]; intros creditors settlements;
    cbn [fold_left fst snd].
  - split; [apply Forall2_settled_refl | intros s Hs; left; exact Hs].
  - destruct (payCreditors_spec debtor creditors (Math_abs (ub_balance debtor)))
      as [Hset Hpush].
    set (r := payCreditors debtor (Math_abs (ub_balance debtor)) creditors) in *.
    destruct (IH (fst r) (settlements ++ snd r)) as [Hset' Hrest].
    split; [exact (Forall2_settled_trans _ _ _ Hset Hset')|].
    intros s Hs; destruct (Hrest s Hs) as [Hold|Hnew].
    + apply in_app_or in Hold; destruct Hold as [Hold|Hnow]; [left; exact Hold|].
      right.
      destruct (Hpush s Hnow) as (H1 & H2 & _ & H4 & H5 & c & Hc & H6).
      repeat split; try assumption.
      * exists debtor; repeat split; [left; reflexivity | assumption..].
      * exists c; split; assumption.
    + right.
      destruct Hnew as (H4 & H5 & (d & Hd & H1) & (c' & Hc' & H6 & H7 & H8)).
      repeat split; try assumption.
      * exists d; split; [right; exact Hd | exact H1].
      * destruct (Forall2_In_r _ _ _ _ Hset Hc') as (c & Hc & Hcc').
        destruct Hcc' as (E1 & E2 & _ & _ & _ & Hle & _).
        exists c; repeat split; [exact Hc | congruence | congruence | lra].
Qed.

Lemma aliased_filter (userBalances : list UserBalance) :
  aliased userBalances (filter is_creditor userBalances) = userBalances.
Proof.
  induction userBalances as [|b rest IH]; cbn [aliased filter]; [reflexivity|].
  change (Qltb (1 # 100) (ub_balance b)) with (is_creditor b).
  destruct (is_creditor b); rewrite IH; reflexivity.
Qed.

Lemma aliased_settled (userBalances : list UserBalance) :
  forall creditors,
    Forall2 settled (filter is_creditor userBalances) creditors ->
    Forall2 (fun b b' => if is_creditor b then settled b b' else b' = b)
            userBalances (aliased userBalances creditors).
Proof.
  induction userBalances as [|b rest IH]; intros creditors Hset;
    cbn [aliased filter] in *; [constructor|].
  change (Qltb (1 # 100) (ub_balance b)) with (is_creditor b).
  destruct (is_creditor b) eqn:E.
  - inversion Hset as [|b0 c l cs Hbc Hrest]; subst.
    constructor; [rewrite E; exact Hbc | apply IH, Hrest].
  - constructor; [rewrite E; reflexivity | apply IH, Hset].
Qed.

Lemma forallb_false_In {A : Type} (f : A -> bool) (l : list A) (x : A) :
  In x l -> f x = false -> forallb f l = false.
Proof.
  intros Hin Hx; destruct (forallb f l) eqn:E; [|reflexivity].
  rewrite forallb_forall in E; rewrite (E x Hin) in Hx; discriminate.
Qed.

Lemma debtor_outside_band (b : UserBalance) :
  is_debtor b = true -> is_creditor b = false /\ within_band b = false.
Proof.
  unfold is_debtor, is_creditor, within_band, Math_abs; intros H.
  apply Qltb_true in H; split; apply Qltb_false; [lra|].
  rewrite Qabs_neg by lra; lra.
Qed.



(** What [calculateSettlements] does to the array it is given. *)
Lemma calculateSettlements_store (userBalances : list UserBalance) :
  let after := snd (calculateSettlements userBalances) in
  Forall2 (fun b b' => if is_creditor b then settled b b' else b' = b)
          userBalances after
  /\ forallb within_band after = forallb within_band userBalances.
Proof.
  unfold calculateSettlements; cbn [snd].
  change (fun b => Qltb (1 # 100) (ub_balance b)) with is_creditor.
  change (fun b => Qltb (ub_balance b) (- (1 # 100))) with is_debtor.
  destruct (settle_debtors_spec (filter is_debtor userBalances)
              (filter is_creditor userBalances) []) as [Hset _].
  pose proof (aliased_settled userBalances _ Hset) as Hal.
  split; [exact Hal|].
  destruct (filter is_debtor userBalances) as [|d ds] eqn:Ed.
  - cbn [fold_left fst]; rewrite aliased_filter; reflexivity.
  - assert (Hd : In d userBalances /\ is_debtor d = true)
      by (apply filter_In; rewrite Ed; left; reflexivity).
    destruct Hd as [Hd Hdeb].
    destruct (debtor_outside_band d Hdeb) as [Hnot Hout].
    rewrite (forallb_false_In within_band userBalances d Hd Hout).
    destruct (Forall2_In_l _ _ _ _ Hal Hd) as (d' & Hd' & Hrel).
    rewrite Hnot in Hrel; subst d'.
    exact (forallb_false_In within_band _ d Hd' Hout).
Qed.


(** The list changes indeed: for the dinner the endpoint computes 60 for
    alice and reports 0, while bob and charlie keep their -30. *)
Example dinner_creditor_reported_settled :
  map (fun b => (ub_userId b, Qred (ub_balance b)))
      (calculateBasicBalances stored_dinner [])
  = [("alice", 60); ("bob", - 30); ("charlie", - 30)]%string
  /\ map (fun b => (ub_userId b, Qred (ub_balance b)))
         (bd_userBalances (handler [] stored_dinner))
     = [("alice", 0); ("bob", - 30); ("charlie", - 30)]%string.
Proof. split; vm_compute; reflexivity. Qed.

(** ** The balance list of the endpoint *)













(** X29.  When the response of the endpoint reports [isBalanced = true],
    it lists no settlement, counts no transaction, and every balance it
    reports is within 0.01 of zero. *)
Theorem handler_balanced (people : list Person)
    (expenses : list StoredExpense) :
  isBalanced (bd_summary (handler people expenses)) = true ->
  bd_settlements (handler people expenses) = []
  /\ totalTransactions (bd_summary (handler people expenses)) = 0%nat
  /\ Forall (fun b => Qabs (ub_balance b) < 1 # 100)
            (bd_userBalances (handler people expenses)).
Proof.
  destruct expenses as [|e es]; [intros _; repeat split; constructor|].
  unfold handler; cbv zeta.
  match goal with
  | |- context [calculateBasicBalances _ ?m] => set (names := m)
  end.
  set (balances := calculateBasicBalances (e :: es) names).
  cbn [bd_summary bd_settlements bd_userBalances isBalanced totalTransactions].
  change (fun b => Qltb (Math_abs (ub_balance b)) (1 # 100)) with within_band.
  intros Hbal.
  assert (Hband : Forall (fun b => Qabs (ub_balance b) < 1 # 100)
                         (snd (calculateSettlements balances))).
  { apply Forall_forall; intros b Hb.
    rewrite forallb_forall in Hbal; apply Qltb_true, (Hbal b Hb). }
  destruct (calculateSettlements_store balances) as [_ Hsame].
  cbv zeta in Hsame; rewrite Hsame in Hbal.
  rewrite forallb_forall in Hbal.
  assert (Hnone : fst (calculateSettlements balances) = []).
  { unfold calculateSettlements; cbn [fst].
    change (fun b => Qltb (ub_balance b) (- (1 # 100))) with is_debtor.
    rewrite (filter_none is_debtor balances); [reflexivity|].
    intros b Hb; destruct (is_debtor b) eqn:E; [|reflexivity].
    destruct (debtor_outside_band b E) as [_ Hout].
    rewrite (Hbal b Hb) in Hout; discriminate Hout. }
  rewrite Hnone; repeat split; [exact Hband].
Qed.

Lemma handler_balanced_witness :
  bd_settlements (handler [] stored_single) = []
  /\ totalTransactions (bd_summary (handler [] stored_single)) = 0%nat
  /\ Forall (fun b => Qabs (ub_balance b) < 1 # 100)
            (bd_userBalances (handler [] stored_single)).
Proof.
  apply (handler_balanced [] stored_single).
  vm_compute; reflexivity.
Defined.


(** * The settlement documents *)

(** X30.  A document the pre-save hook lets through joins two different
    participants and keeps its status and amount; a paid document has a
    payment date and no paid amount, a partially paid one has no date and
    a paid amount strictly between zero and the amount, which
    [getRemainingAmount] and the [remainingAmount] virtual both take off
    the amount, and a pending one has neither.  The hook lets the
    document through again unchanged, whatever the clock. *)
Theorem pre_save_invariant (now later : Z) (this saved : ISettlement) :
  pre_save now this = Ok saved ->
  st_fromParticipant saved <> st_toParticipant saved
  /\ st_status saved = st_status this
  /\ st_amount saved = st_amount this
  /\ match st_status saved with
     | paid =>
         st_paidAt saved <> None /\ st_paidAmount saved = None
         /\ getRemainingAmount saved = 0
     | partially_paid =>
         st_paidAt saved = None
         /\ exists part,
              st_paidAmount saved = Some part
              /\ 0 < part < st_amount saved
              /\ getRemainingAmount saved = st_amount saved - part
              /\ remainingAmount saved = st_amount saved - part
     | pending =>
         st_paidAt saved = None /\ st_paidAmount saved = None
         /\ getRemainingAmount saved = st_amount saved
     end
  /\ pre_save later saved = Ok saved.
Proof.
  unfold pre_save.
  destruct (String.eqb_spec (st_fromParticipant this) (st_toParticipant this))
    as [|Hne]; [discriminate|].
  assert (Hneb : String.eqb (st_fromParticipant this) (st_toParticipant this)
                 = false) by (apply String.eqb_neq, Hne).
  destruct (st_status this) eqn:Est.
  - intros H; injection H as <-; cbn.
    rewrite Hneb; auto 10.
  - intros H; injection H as <-; cbn.
    rewrite Hneb.
    destruct (st_paidAt this); repeat split; auto; discriminate.
  - destruct (negb (truthy (st_paidAmount this))) eqn:Et; [discriminate|].
    destruct (Qle_bool (num (st_paidAmount this)) 0) eqn:E0; [discriminate|].
    destruct (Qle_bool (st_amount this) (num (st_paidAmount this))) eqn:E1;
      [discriminate|].
    intros H; injection H as <-; cbn.
    rewrite Hneb, Et, E0, E1; cbn.
    destruct (st_paidAmount this) as [part|]; [|discriminate Et].
    cbn [num] in *.
    assert (Hpos : 0 < part)
      by (apply Qnot_le_lt; intros H; apply Qle_bool_iff in H; congruence).
    assert (Hlt : part < st_amount this)
      by (apply Qnot_le_lt; intros H; apply Qle_bool_iff in H; congruence).
    repeat split; auto.
    exists part; repeat split; auto.
    unfold remainingAmount, Math_max; cbn [num fold_left st_amount st_paidAmount].
    assert (E : Qltb 0 (st_amount this - part) = true)
      by (apply Qltb_true; lra).
    rewrite E; reflexivity.
Qed.

Lemma pre_save_invariant_witness :
  exists saved,
    pre_save 0 bob_owes_alice = Ok saved
    /\ st_fromParticipant saved <> st_toParticipant saved
    /\ pre_save 1 saved = Ok saved.
Proof.
  exists bob_owes_alice.
  assert (H : pre_save 0 bob_owes_alice = Ok bob_owes_alice) by reflexivity.
  split; [exact H|].
  destruct (pre_save_invariant 0 1 bob_owes_alice bob_owes_alice H)
    as (H1 & _ & _ & _ & H2).
  split; assumption.
Defined.

(** The documents the three methods hand to [save()] pass the hook as
    they are, as long as the two participants differ. *)
Lemma marked_documents_pass (now : Z) (this : ISettlement) :
  st_fromParticipant this <> st_toParticipant this ->
  pre_save now (markAsPaid now this) = Ok (markAsPaid now this)
  /\ pre_save now (markAsPending this) = Ok (markAsPending this)
  /\ forall part marked,
       markAsPartiallyPaid part this = Ok marked ->
       pre_save now marked = Ok marked
       /\ getRemainingAmount marked = st_amount this - part.
Proof.
  intros Hne; apply String.eqb_neq in Hne.
  unfold pre_save, markAsPaid, markAsPending, markAsPartiallyPaid; cbn.
  rewrite Hne; split; [reflexivity|]; split; [reflexivity|].
  intros part marked.
  destruct (Qle_bool part 0) eqn:E0; [discriminate|].
  destruct (Qle_bool (st_amount this) part) eqn:E1; [discriminate|].
  cbn; intros H; injection H as <-; cbn.
  rewrite Hne, E0, E1.
  assert (Et : Qeq_bool part 0 = false).
  { destruct (Qeq_bool part 0) eqn:E; [|reflexivity].
    apply Qeq_bool_iff in E.
    assert (Hle : part <= 0) by (rewrite E; apply Qle_refl).
    apply Qle_bool_iff in Hle; congruence. }
  rewrite Et; split; reflexivity.
Qed.
